(** * netmd-js: the command layer (src/netmd-commands.ts)

    A shallow embedding of the status decoder ([getDeviceStatus]), the
    content model ([countTracksInDisc], [getTracks], [listContent]) and the
    download sequence ([download]), with the properties the specification
    states about them.

    The device is reached through [NetMDInterface], whose implementation
    lives in netmd-interface.ts; here it is a record of operations over an
    abstract device state.  An awaited call is a computation that takes the
    device state and gives back a value or a thrown error together with
    the next device state. *)

From Stdlib Require Import ZArith List String Lia Permutation.
From Stdlib.Strings Require Byte.
From stdpp Require Import base option list gmap strings.
Import ListNotations.
Local Open Scope Z_scope.

(** ** Awaited computations: device state passing with exceptions *)

Inductive Result (E A : Type) : Type :=
| Ok (a : A)
| Throw (e : E).
Arguments Ok {E A} a.
Arguments Throw {E A} e.

Definition M (W E A : Type) : Type := W -> Result E A * W.

Definition ret {W E A} (a : A) : M W E A := fun w => (Ok a, w).

Definition throw {W E A} (e : E) : M W E A := fun w => (Throw e, w).

Definition bind {W E A B} (m : M W E A) (k : A -> M W E B) : M W E B :=
  fun w =>
    match m w with
    | (Ok a, w') => k a w'
    | (Throw e, w') => (Throw e, w')
    end.

(** [try { m } catch (err) { h err }] *)
Definition try_catch {W E A} (m : M W E A) (h : E -> M W E A) : M W E A :=
  fun w =>
    match m w with
    | (Ok a, w') => (Ok a, w')
    | (Throw e, w') => h e w'
    end.

Declare Scope await_scope.
Delimit Scope await_scope with await.
Notation "'let!' x ':=' m 'in' k" := (bind m (fun x => k))
  (at level 10, x binder, m at level 100, k at level 200) : await_scope.
Notation "'let!' ' p ':=' m 'in' k" := (bind m (fun x => match x with p => k end))
  (at level 10, p pattern, m at level 100, k at level 200) : await_scope.
Notation "m ';;' k" := (bind m (fun _ => k))
  (at level 100, k at level 200, right associativity) : await_scope.
Local Open Scope await_scope.

(** A loop [for (x of xs) { acc = body(acc, x) }] whose body awaits. *)
Fixpoint for_of {W E A X} (body : A -> X -> M W E A) (xs : list X) (acc : A)
  : M W E A :=
  match xs with
  | [] => ret acc
  | x :: xs' => let! acc' := body acc x in for_of body xs' acc'
  end.

(** [xs.entries()]: the pairs [index, value]. *)
Fixpoint entries_from {X} (i : Z) (xs : list X) : list (Z * X) :=
  match xs with
  | [] => []
  | x :: xs' => (i, x) :: entries_from (i + 1) xs'
  end.
Definition entries {X} (xs : list X) : list (Z * X) := entries_from 0 xs.

(** ** JavaScript numbers as far as the decoder uses them *)

Module Js.

(** An array element read: [undefined] when the index is out of range. *)
Inductive value : Type :=
| undefined
| num (z : Z).

Definition of_byte (b : Byte.byte) : Z := Z.of_N (Byte.to_N b).

(** [buf[i]] on a byte buffer. *)
Definition at_byte (buf : list Byte.byte) (i : nat) : value :=
  match buf !! i with
  | Some b => num (of_byte b)
  | None => undefined
  end.

(** [arr[i]] on an array of numbers. *)
Definition at_num (arr : list Z) (i : nat) : value :=
  match arr !! i with
  | Some z => num z
  | None => undefined
  end.

(** Two's-complement wrap to a signed 32-bit integer. *)
Definition wrap32 (z : Z) : Z := (z + 2 ^ 31) mod 2 ^ 32 - 2 ^ 31.

(** ToInt32: [undefined] becomes NaN, which becomes 0. *)
Definition ToInt32 (v : value) : Z :=
  match v with
  | undefined => 0
  | num z => wrap32 z
  end.

(** [a << n] *)
Definition shl (a : value) (n : Z) : Z :=
  wrap32 (Z.shiftl (ToInt32 a) (n mod 32)).

(** [a | b] *)
Definition bor (a b : Z) : Z := wrap32 (Z.lor (wrap32 a) (wrap32 b)).

(** [a & b] *)
Definition band (a b : Z) : Z := wrap32 (Z.land (wrap32 a) (wrap32 b)).

(** [v === n] for a number literal [n]. *)
Definition strict_eq_num (v : value) (n : Z) : bool :=
  match v with
  | undefined => false
  | num z => z =? n
  end.

End Js.

(** ** Status decoder *)

Inductive OperatingStatusType : Type :=
| ready
| playing
| fastForward
| rewind
| readingTOC
| unknown.

#[global] Instance OperatingStatusType_eq_dec : EqDecision OperatingStatusType.
Proof. solve_decision. Defined.

(** The object literal [OperatingStatus], keyed by status code. *)
Definition OperatingStatus : gmap Z OperatingStatusType :=
  <[50687 := ready]>
  (<[50037 := playing]>
  (<[49983 := fastForward]>
  (<[49999 := rewind]>
  (<[65315 := readingTOC]> ∅)))).

Record PlayTime : Type := {
  pt_minute : Js.value;
  pt_second : Js.value;
  pt_frame : Js.value;
}.

Record DeviceStatus : Type := {
  discPresent : bool;
  state : OperatingStatusType;
  track : option Js.value;
  time : option PlayTime;
}.

(** [(b1 << 8) | b2] with [b1], [b2] the elements 4 and 5. *)
Definition operatingStatusOf (playbackStatus2 : list Byte.byte) : Z :=
  let b1 := Js.at_byte playbackStatus2 4 in
  let b2 := Js.at_byte playbackStatus2 5 in
  Js.bor (Js.shl b1 8) (Js.ToInt32 b2).

(** [operatingStatus in OperatingStatus ? OperatingStatus[operatingStatus] : 'unknown'] *)
Definition lookupState (operatingStatus : Z) : OperatingStatusType :=
  match OperatingStatus !! operatingStatus with
  | Some s => s
  | None => unknown
  end.

(** The body of [getDeviceStatus] after its three reads. *)
Definition decodeStatus (status playbackStatus2 : list Byte.byte)
    (position : option (list Z)) : DeviceStatus :=
  let operatingStatus := operatingStatusOf playbackStatus2 in
  let track :=
    match position with
    | Some p => Some (Js.at_num p 0)
    | None => None
    end in
  let discPresent := Js.strict_eq_num (Js.at_byte status 4) 64 in
  let state := lookupState operatingStatus in
  let state :=
    if bool_decide (state = playing) && negb discPresent then ready else state in
  let time :=
    match position with
    | Some p =>
        Some {| pt_minute := Js.at_num p 2;
                pt_second := Js.at_num p 3;
                pt_frame := Js.at_num p 4 |}
    | None => None
    end in
  {| discPresent := discPresent; state := state; track := track; time := time |}.

(** The element of a byte buffer as the bit operators see it: 0 when the
    buffer is too short. *)
Definition byte_or_0 (buf : list Byte.byte) (i : nat) : Z :=
  match buf !! i with
  | Some b => Js.of_byte b
  | None => 0
  end.

(** ** Content model *)

Module Track.
Record t : Type := {
  index : Z;
  title : option string;
  duration : Z;
  channel : Z;
  encoding : Z;
  protected : Z;
}.
End Track.

Module Group.
Record t : Type := {
  index : Z;
  title : option string;
  tracks : list Track.t;
}.
End Group.

(** [Disc], over the representation [G] of a group: a [Group.t] in a disc
    handed to a caller, a reference to a group object while [listContent]
    is still filling the groups in. *)
Module Disc.
Record t (G : Type) : Type := {
  title : string;
  writable : bool;
  writeProtected : bool;
  used : Z;
  left : Z;
  total : Z;
  trackCount : Z;
  groups : list G;
}.
Arguments title {G} _.
Arguments writable {G} _.
Arguments writeProtected {G} _.
Arguments used {G} _.
Arguments left {G} _.
Arguments total {G} _.
Arguments trackCount {G} _.
Arguments groups {G} _.
End Disc.

Definition Disc : Type := Disc.t Group.t.

(** The disc [d] with [gs] for its groups. *)
Definition with_groups {G G'} (d : Disc.t G) (gs : list G') : Disc.t G' :=
  {| Disc.title := Disc.title d;
     Disc.writable := Disc.writable d;
     Disc.writeProtected := Disc.writeProtected d;
     Disc.used := Disc.used d;
     Disc.left := Disc.left d;
     Disc.total := Disc.total d;
     Disc.trackCount := Disc.trackCount d;
     Disc.groups := gs |}.

(** [disc.groups.reduce((acc, g, _) => acc + g.tracks.length, 0)] *)
Definition countTracksInDisc (disc : Disc) : Z :=
  fold_left (fun acc g => acc + Z.of_nat (length (Group.tracks g)))
            (Disc.groups disc) 0.

(** The two nested loops pushing onto [tracks]. *)
Definition getTracks (disc : Disc) : list Track.t :=
  fold_left
    (fun tracks group =>
       fold_left (fun tracks track => tracks ++ [track])
                 (Group.tracks group) tracks)
    (Disc.groups disc) [].

(** Modelled from the spec: the time value that [getDiscCapacity] and
    [getTrackLength] give and [timeToFrames] takes; its type is declared
    outside netmd-commands.ts.  The spec gives a time as minutes, seconds
    and frames within the second. *)
Record NativeTime : Type := {
  minutes : Z;
  seconds : Z;
  frames : Z;
}.

(** Modelled from the spec: [timeToFrames] is imported from utils.ts, which
    is not among the sources.  The spec gives the conversion as
    frames = minutes x 60 x 75 + seconds x 75 + frames-within-second. *)
Definition timeToFrames (t : NativeTime) : Z :=
  minutes t * 60 * 75 + seconds t * 75 + frames t.

(** ** The protocol command interface *)

(** The types netmd-interface.ts leaves to the device layer: thrown values,
    the track to send, the progress observer, and the objects behind
    [new EKBOpenSource()] and [new MDSession(...)]. *)
Record Types : Type := {
  Err : Type;
  MDTrack : Type;
  ProgressCallback : Type;
  EKBOpenSource : Type;
  MDSession : Type;
}.

(** What netmd-commands.ts uses of netmd-interface.ts, over a device state
    [W]: the methods of [NetMDInterface], the two [DiscFlag] constants, and
    the constructors and methods of the session classes, which act on the
    same device. *)
Record NetMDInterface (T : Types) (W : Type) : Type := {
  getStatus : M W (Err T) (list Byte.byte);
  getPlaybackStatus2 : M W (Err T) (list Byte.byte);
  getPosition : M W (Err T) (option (list Z));
  DiscFlag_writable : Z;
  DiscFlag_writeProtected : Z;
  getDiscFlags : M W (Err T) Z;
  getDiscTitle : M W (Err T) string;
  getDiscCapacity : M W (Err T) (NativeTime * NativeTime * NativeTime);
  getTrackCount : M W (Err T) Z;
  getTrackGroupList : M W (Err T) (list (option string * list Z));
  getTrackTitle : Z -> M W (Err T) (option string);
  getTrackEncoding : Z -> M W (Err T) (Z * Z);
  getTrackLength : Z -> M W (Err T) NativeTime;
  getTrackFlags : Z -> M W (Err T) Z;
  sessionKeyForget : M W (Err T) unit;
  leaveSecureSession : M W (Err T) unit;
  acquire : M W (Err T) unit;
  release : M W (Err T) unit;
  disableNewTrackProtection : Z -> M W (Err T) unit;
  EKBOpenSource_new : M W (Err T) (EKBOpenSource T);
  MDSession_new : EKBOpenSource T -> M W (Err T) (MDSession T);
  MDSession_init : MDSession T -> M W (Err T) unit;
  MDSession_downloadTrack :
    MDSession T -> MDTrack T -> option (ProgressCallback T) ->
    M W (Err T) (Z * string * string);
  MDSession_close : MDSession T -> M W (Err T) unit;
}.
Arguments getStatus {T W} _.
Arguments getPlaybackStatus2 {T W} _.
Arguments getPosition {T W} _.
Arguments DiscFlag_writable {T W} _.
Arguments DiscFlag_writeProtected {T W} _.
Arguments getDiscFlags {T W} _.
Arguments getDiscTitle {T W} _.
Arguments getDiscCapacity {T W} _.
Arguments getTrackCount {T W} _.
Arguments getTrackGroupList {T W} _.
Arguments getTrackTitle {T W} _ _.
Arguments getTrackEncoding {T W} _ _.
Arguments getTrackLength {T W} _ _.
Arguments getTrackFlags {T W} _ _.
Arguments sessionKeyForget {T W} _.
Arguments leaveSecureSession {T W} _.
Arguments acquire {T W} _.
Arguments release {T W} _.
Arguments disableNewTrackProtection {T W} _ _.
Arguments EKBOpenSource_new {T W} _.
Arguments MDSession_new {T W} _ _.
Arguments MDSession_init {T W} _ _.
Arguments MDSession_downloadTrack {T W} _ _ _ _.
Arguments MDSession_close {T W} _ _.

Section Commands.
Context {T : Types} {W : Type}.
Variable mdIface : NetMDInterface T W.

Local Abbreviation Await := (M W (Err T)).

Definition getDeviceStatus : Await DeviceStatus :=
  let! status := getStatus mdIface in
  let! playbackStatus2 := getPlaybackStatus2 mdIface in
  let! position := getPosition mdIface in
  ret (decodeStatus status playbackStatus2 position).

(** The body of the inner loop of [listContent]: four reads and the
    [Track] literal. *)
Definition readTrack (track : Z) : Await Track.t :=
  let! title := getTrackTitle mdIface track in
  let! '(codec, channel) := getTrackEncoding mdIface track in
  let! len := getTrackLength mdIface track in
  let duration := timeToFrames len in
  let! flags := getTrackFlags mdIface track in
  ret {| Track.index := track;
         Track.title := title;
         Track.duration := duration;
         Track.channel := channel;
         Track.encoding := codec;
         Track.protected := flags |}.

(** Group objects live in a store, a list addressed by position:
    [disc.groups] holds references, so that the assignment to [g.tracks]
    made after [disc.groups.push(g)] shows through the disc. *)
Definition GroupStore : Type := list Group.t.

Definition set_tracks (f : list Track.t -> list Track.t) (g : Group.t)
  : Group.t :=
  {| Group.index := Group.index g;
     Group.title := Group.title g;
     Group.tracks := f (Group.tracks g) |}.

(** [disc.groups.push(g)] *)
Definition push_group (disc : Disc.t nat) (g : nat) : Disc.t nat :=
  with_groups disc (Disc.groups disc ++ [g]).

(** The disc as the caller reads it: every reference followed. *)
Definition deref (store : GroupStore) (disc : Disc.t nat) : Disc :=
  with_groups disc (omap (fun g => store !! g) (Disc.groups disc)).

(** The body of the outer loop of [listContent]. *)
Definition readGroup (acc : Disc.t nat * GroupStore)
    (entry : Z * (option string * list Z)) : Await (Disc.t nat * GroupStore) :=
  let '(disc, store) := acc in
  let '(groupIndex, (groupName, trackLists)) := entry in
  let g := length store in
  let store :=
    store ++ [{| Group.index := groupIndex;
                 Group.title := groupName;
                 Group.tracks := [] |}] in
  let disc := push_group disc g in
  let! tracks :=
    for_of (fun tracks '(trackIndex, track) =>
              let! t := readTrack track in
              ret (tracks ++ [t]))
           (entries trackLists) [] in
  let store := alter (set_tracks (fun old => old ++ tracks)) g store in
  ret (disc, store).

Definition listContent : Await Disc :=
  let! flags := getDiscFlags mdIface in
  let! title := getDiscTitle mdIface in
  let! '(discUsed, discTotal, discLeft) := getDiscCapacity mdIface in
  let! trackCount := getTrackCount mdIface in
  let disc : Disc.t nat :=
    {| Disc.title := title;
       Disc.writable :=
         negb (Js.band flags (DiscFlag_writable mdIface) =? 0);
       Disc.writeProtected :=
         negb (Js.band flags (DiscFlag_writeProtected mdIface) =? 0);
       Disc.used := timeToFrames discUsed;
       Disc.left := timeToFrames discLeft;
       Disc.total := timeToFrames discTotal;
       Disc.trackCount := trackCount;
       Disc.groups := [] |} in
  let! trackGroupList := getTrackGroupList mdIface in
  let! '(disc, store) :=
    for_of readGroup (entries trackGroupList) (disc, []) in
  ret (deref store disc).

(** The two loops of [listContent] read by value, without the store:
    what the loops are shown to compute. *)
Fixpoint readTracks (trackLists : list Z) : Await (list Track.t) :=
  match trackLists with
  | [] => ret []
  | track :: rest =>
      let! t := readTrack track in
      let! ts := readTracks rest in
      ret (t :: ts)
  end.

Fixpoint readGroups (groupIndex : Z)
    (trackGroupList : list (option string * list Z)) : Await (list Group.t) :=
  match trackGroupList with
  | [] => ret []
  | (groupName, trackLists) :: rest =>
      let! tracks := readTracks trackLists in
      let! gs := readGroups (groupIndex + 1) rest in
      ret ({| Group.index := groupIndex;
              Group.title := groupName;
              Group.tracks := tracks |} :: gs)
  end.

(** A duration that is the conversion of a length the device gave for
    that track. *)
Definition duration_read (tr : Track.t) : Prop :=
  exists len wa wb,
    getTrackLength mdIface (Track.index tr) wa = (Ok len, wb) /\
    Track.duration tr = timeToFrames len.

Definition download (track : MDTrack T)
    (progressCallback : option (ProgressCallback T))
  : Await (Z * string * string) :=
  try_catch
    (sessionKeyForget mdIface ;;
     leaveSecureSession mdIface)
    (fun err => ret tt) ;;
  acquire mdIface ;;
  try_catch
    (disableNewTrackProtection mdIface 1)
    (fun err => ret tt) ;;
  let! ekb := EKBOpenSource_new mdIface in
  let! session := MDSession_new mdIface ekb in
  MDSession_init mdIface session ;;
  let! '(trk, uuid, ccid) :=
    MDSession_downloadTrack mdIface session track progressCallback in
  MDSession_close mdIface session ;;
  release mdIface ;;
  ret (trk, uuid, ccid).

End Commands.

(** ** Observing the calls made on the interface

    To count calls and to tell where a thrown error comes from, an
    interface is wrapped so that every call appends one entry to a log kept
    beside the device state: which operation was called, and the error it
    threw if it threw.  The wrapped interface answers as the original
    does. *)

Inductive Call : Type :=
| CgetStatus
| CgetPlaybackStatus2
| CgetPosition
| CgetDiscFlags
| CgetDiscTitle
| CgetDiscCapacity
| CgetTrackCount
| CgetTrackGroupList
| CgetTrackTitle (track : Z)
| CgetTrackEncoding (track : Z)
| CgetTrackLength (track : Z)
| CgetTrackFlags (track : Z)
| CsessionKeyForget
| CleaveSecureSession
| Cacquire
| Crelease
| CdisableNewTrackProtection (val : Z)
| CnewEKBOpenSource
| CnewMDSession
| Cinit
| CdownloadTrack
| Cclose.

#[global] Instance Call_eq_dec : EqDecision Call.
Proof. solve_decision. Defined.

Record Event (E : Type) : Type := {
  call : Call;
  thrown : option E;
}.
Arguments call {E} _.
Arguments thrown {E} _.
Arguments Build_Event {E} _ _.

Definition returned {E} (c : Call) : Event E :=
  {| call := c; thrown := None |}.
Definition threw {E} (c : Call) (e : E) : Event E :=
  {| call := c; thrown := Some e |}.

Definition outcome {E A} (c : Call) (r : Result E A) : Event E :=
  match r with
  | Ok _ => returned c
  | Throw e => threw c e
  end.

Definition observe {W E A} (c : Call) (m : M W E A) : M (W * list (Event E)) E A :=
  fun s =>
    let '(r, w') := m (fst s) in
    (r, (w', snd s ++ [outcome c r])).

Definition spy {T W} (i : NetMDInterface T W)
  : NetMDInterface T (W * list (Event (Err T))) :=
  {| getStatus := observe CgetStatus (getStatus i);
     getPlaybackStatus2 := observe CgetPlaybackStatus2 (getPlaybackStatus2 i);
     getPosition := observe CgetPosition (getPosition i);
     DiscFlag_writable := DiscFlag_writable i;
     DiscFlag_writeProtected := DiscFlag_writeProtected i;
     getDiscFlags := observe CgetDiscFlags (getDiscFlags i);
     getDiscTitle := observe CgetDiscTitle (getDiscTitle i);
     getDiscCapacity := observe CgetDiscCapacity (getDiscCapacity i);
     getTrackCount := observe CgetTrackCount (getTrackCount i);
     getTrackGroupList := observe CgetTrackGroupList (getTrackGroupList i);
     getTrackTitle := fun t => observe (CgetTrackTitle t) (getTrackTitle i t);
     getTrackEncoding := fun t => observe (CgetTrackEncoding t) (getTrackEncoding i t);
     getTrackLength := fun t => observe (CgetTrackLength t) (getTrackLength i t);
     getTrackFlags := fun t => observe (CgetTrackFlags t) (getTrackFlags i t);
     sessionKeyForget := observe CsessionKeyForget (sessionKeyForget i);
     leaveSecureSession := observe CleaveSecureSession (leaveSecureSession i);
     acquire := observe Cacquire (acquire i);
     release := observe Crelease (release i);
     disableNewTrackProtection := fun v =>
       observe (CdisableNewTrackProtection v) (disableNewTrackProtection i v);
     EKBOpenSource_new := observe CnewEKBOpenSource (EKBOpenSource_new i);
     MDSession_new := fun ekb => observe CnewMDSession (MDSession_new i ekb);
     MDSession_init := fun s => observe Cinit (MDSession_init i s);
     MDSession_downloadTrack := fun s t cb =>
       observe CdownloadTrack (MDSession_downloadTrack i s t cb);
     MDSession_close := fun s => observe Cclose (MDSession_close i s) |}.

(** How often [c] was called. *)
Definition calls {E} (c : Call) (log : list (Event E)) : nat :=
  length (filter (fun ev => call ev = c) log).

(** The log of one run of [download] from device state [w]. *)
Definition download_log {T W} (i : NetMDInterface T W) (track : MDTrack T)
    (cb : option (ProgressCallback T)) (w : W) : list (Event (Err T)) :=
  snd (snd (download (spy i) track cb (w, []))).

(** The call logged right after the first call of [c]. *)
Fixpoint called_next {E} (c : Call) (log : list (Event E)) : option Call :=
  match log with
  | [] => None
  | ev :: rest =>
      if decide (call ev = c)
      then match rest with
           | [] => None
           | ev' :: _ => Some (call ev')
           end
      else called_next c rest
  end.

(** The steps of [download] whose error the source does not catch. *)
Definition fatal_step (c : Call) : Prop :=
  c = Cacquire \/ c = CnewEKBOpenSource \/ c = CnewMDSession \/
  c = Cinit \/ c = CdownloadTrack \/ c = Cclose \/ c = Crelease.

(** The steps of [download] wrapped in a [try] with an empty [catch]. *)
Definition best_effort_step (c : Call) : Prop :=
  c = CsessionKeyForget \/ c = CleaveSecureSession \/
  exists v, c = CdisableNewTrackProtection v.

(** ** Scripted devices

    Concrete interfaces on which the commands are run: a stateless device
    that answers every read from a fixed script and throws, as a string, in
    the calls the script lists. *)

Definition ScriptedTypes : Types :=
  {| Err := string;
     MDTrack := unit;
     ProgressCallback := unit;
     EKBOpenSource := unit;
     MDSession := unit |}.

Record Script : Type := {
  failing : list (Call * string);
  s_status : list Byte.byte;
  s_playbackStatus2 : list Byte.byte;
  s_position : option (list Z);
  s_discFlags : Z;
  s_discTitle : string;
  s_discCapacity : NativeTime * NativeTime * NativeTime;
  s_trackCount : Z;
  s_trackGroupList : list (option string * list Z);
  s_trackLength : Z -> NativeTime;
}.

Definition answer {A} (s : Script) (c : Call) (a : A)
  : M unit (Err ScriptedTypes) A :=
  match find (fun p => bool_decide (fst p = c)) (failing s) with
  | Some p => throw (snd p)
  | None => ret a
  end.

Definition scripted (s : Script) : NetMDInterface ScriptedTypes unit :=
  {| getStatus := answer s CgetStatus (s_status s);
     getPlaybackStatus2 := answer s CgetPlaybackStatus2 (s_playbackStatus2 s);
     getPosition := answer s CgetPosition (s_position s);
     DiscFlag_writable := 16;
     DiscFlag_writeProtected := 64;
     getDiscFlags := answer s CgetDiscFlags (s_discFlags s);
     getDiscTitle := answer s CgetDiscTitle (s_discTitle s);
     getDiscCapacity := answer s CgetDiscCapacity (s_discCapacity s);
     getTrackCount := answer s CgetTrackCount (s_trackCount s);
     getTrackGroupList := answer s CgetTrackGroupList (s_trackGroupList s);
     getTrackTitle := fun t => answer s (CgetTrackTitle t) None;
     getTrackEncoding := fun t => answer s (CgetTrackEncoding t) (144, 0);
     getTrackLength := fun t => answer s (CgetTrackLength t) (s_trackLength s t);
     getTrackFlags := fun t => answer s (CgetTrackFlags t) 0;
     sessionKeyForget := answer s CsessionKeyForget tt;
     leaveSecureSession := answer s CleaveSecureSession tt;
     acquire := answer s Cacquire tt;
     release := answer s Crelease tt;
     disableNewTrackProtection := fun v => answer s (CdisableNewTrackProtection v) tt;
     EKBOpenSource_new := answer s CnewEKBOpenSource tt;
     MDSession_new := fun _ => answer s CnewMDSession tt;
     MDSession_init := fun _ => answer s Cinit tt;
     MDSession_downloadTrack := fun _ _ _ =>
       answer s CdownloadTrack (3, "uuid"%string, "ccid"%string);
     MDSession_close := fun _ => answer s Cclose tt |}.

Definition time_of (m s f : Z) : NativeTime :=
  {| minutes := m; seconds := s; frames := f |}.

(** A disc of three tracks in two groups; no call throws. *)
Definition two_groups : Script :=
  {| failing := [];
     s_status := [Byte.x00; Byte.x00; Byte.x00; Byte.x00; Byte.x40];
     s_playbackStatus2 :=
       [Byte.x00; Byte.x00; Byte.x00; Byte.x00; Byte.xc5; Byte.xff];
     s_position := Some [1; 0; 0; 12; 30];
     s_discFlags := 16;
     s_discTitle := "disc"%string;
     s_discCapacity := (time_of 1 2 10, time_of 80 0 0, time_of 78 57 65);
     s_trackCount := 3;
     s_trackGroupList := [(Some "A"%string, [0; 1]); (Some "B"%string, [2])];
     s_trackLength := fun t => time_of t 2 10 |}.

(** The same device with the calls of [fs] throwing. *)
Definition with_failures (fs : list (Call * string)) (s : Script) : Script :=
  {| failing := fs;
     s_status := s_status s;
     s_playbackStatus2 := s_playbackStatus2 s;
     s_position := s_position s;
     s_discFlags := s_discFlags s;
     s_discTitle := s_discTitle s;
     s_discCapacity := s_discCapacity s;
     s_trackCount := s_trackCount s;
     s_trackGroupList := s_trackGroupList s;
     s_trackLength := s_trackLength s |}.

(** A device that counts two tracks and lists one group running past
    them, over the indices 0 to 2. *)
Definition overlong_group : Script :=
  {| failing := [];
     s_status := s_status two_groups;
     s_playbackStatus2 := s_playbackStatus2 two_groups;
     s_position := None;
     s_discFlags := 16;
     s_discTitle := "disc"%string;
     s_discCapacity := s_discCapacity two_groups;
     s_trackCount := 2;
     s_trackGroupList := [(Some "A"%string, [0; 1; 2])];
     s_trackLength := fun t => time_of t 2 10 |}.

(** Status buffers: the code of "playing" (50037 = 0xC375) with byte 4 of
    the status buffer different from 0x40. *)
Definition status_no_disc : list Byte.byte :=
  [Byte.x00; Byte.x00; Byte.x00; Byte.x00; Byte.x00].
Definition playback_playing : list Byte.byte :=
  [Byte.x00; Byte.x00; Byte.x00; Byte.x00; Byte.xc3; Byte.x75].

(** The device of [two_groups] with one call of [download] throwing. *)
Definition forget_fails : Script :=
  with_failures [(CsessionKeyForget, "no session key"%string)] two_groups.
Definition protection_unsupported : Script :=
  with_failures [(CdisableNewTrackProtection 1, "not supported"%string)] two_groups.
Definition acquire_fails : Script :=
  with_failures [(Cacquire, "device busy"%string)] two_groups.
Definition init_fails : Script :=
  with_failures [(Cinit, "handshake failed"%string)] two_groups.

(** ** Finding and describing devices

    [openPairedDevice], [openNewDevice] and [listDevice] talk to the
    browser's [USB] object and to the classes [NetMD] and [NetMDInterface];
    [DevicesIds] is the table of known devices of netmd.ts. *)

(** A [USBDevice] as far as the commands read it; the two names may be
    absent. *)
Record USBDevice : Type := {
  vendorId : Z;
  productId : Z;
  manufacturerName : option string;
  productName : option string;
}.

(** An entry of [DevicesIds]. *)
Record DeviceId : Type := {
  id_vendorId : Z;
  id_deviceId : Z;
  id_name : option string;
}.

(** The interface [Device]. *)
Module Device.
Record t : Type := {
  manufacturerName : string;
  productName : string;
  vendorId : Z;
  productId : Z;
  name : string;
}.
End Device.

Record UsbTypes : Type := {
  UsbErr : Type;
  Logger : Type;
  NetMD : Type;
  Interface : Type;
}.

(** The [USB] object, the table [DevicesIds] and the constructors and the
    [init] of the device classes, over a state [W] of browser and device. *)
Record UsbEnv (U : UsbTypes) (W : Type) : Type := {
  DevicesIds : list DeviceId;
  getDevices : M W (UsbErr U) (list USBDevice);
  requestDevice : list (Z * Z) -> M W (UsbErr U) USBDevice;
  NetMD_new : USBDevice -> Z -> option (Logger U) -> M W (UsbErr U) (NetMD U);
  NetMD_init : NetMD U -> M W (UsbErr U) unit;
  NetMDInterface_new :
    NetMD U -> option (Logger U) -> M W (UsbErr U) (Interface U);
}.
Arguments DevicesIds {U W} _.
Arguments getDevices {U W} _.
Arguments requestDevice {U W} _ _.
Arguments NetMD_new {U W} _ _ _ _.
Arguments NetMD_init {U W} _ _.
Arguments NetMDInterface_new {U W} _ _ _.

(** [a ?? b] *)
Definition nullish {A} (a : option A) (b : A) : A :=
  match a with
  | Some x => x
  | None => b
  end.

Section Devices.
Context {U : UsbTypes} {W : Type}.
Variable usb : UsbEnv U W.

Local Abbreviation Await := (M W (UsbErr U)).

(** [DevicesIds.map(({ vendorId, deviceId }) => ({ vendorId, deviceId }))] *)
Definition filters : list (Z * Z) :=
  map (fun did => (id_vendorId did, id_deviceId did)) (DevicesIds usb).

Definition openPairedDevice (logger : option (Logger U))
  : Await (option (Interface U)) :=
  let! devices := getDevices usb in
  match devices with
  | [] => ret None
  | device0 :: _ =>
      let! netmd := NetMD_new usb device0 0 logger in
      NetMD_init usb netmd ;;
      let! iface := NetMDInterface_new usb netmd logger in
      ret (Some iface)
  end.

Definition openNewDevice (logger : option (Logger U))
  : Await (option (Interface U)) :=
  let! device :=
    try_catch
      (let! device := requestDevice usb filters in ret (Some device))
      (fun err => ret None) in
  match device with
  | None => ret None
  | Some device =>
      let! netmd := NetMD_new usb device 0 logger in
      NetMD_init usb netmd ;;
      let! iface := NetMDInterface_new usb netmd logger in
      ret (Some iface)
  end.

(** The callback of [DevicesIds.find] in [listDevice]. *)
Definition matches (device : USBDevice) (did : DeviceId) : bool :=
  (id_deviceId did =? productId device) && (id_vendorId did =? vendorId device).

(** The [Device] literal of [listDevice]. *)
Definition describe (device : USBDevice) : Device.t :=
  let id := find (matches device) (DevicesIds usb) in
  {| Device.manufacturerName := nullish (manufacturerName device) "unknown";
     Device.productName := nullish (productName device) "unknown";
     Device.vendorId := vendorId device;
     Device.productId := productId device;
     Device.name :=
       nullish (match id with
                | Some did => id_name did
                | None => None
                end) "unknown" |}.

Definition listDevice : Await Device.t :=
  let! device := requestDevice usb filters in
  ret (describe device).

End Devices.

(** ** Reading the log of a run *)

(** The log of one run of [listContent], and of [getDeviceStatus], from
    device state [w]. *)
Definition listContent_log {T W} (i : NetMDInterface T W) (w : W)
  : list (Event (Err T)) :=
  snd (snd (listContent (spy i) (w, []))).

Definition getDeviceStatus_log {T W} (i : NetMDInterface T W) (w : W)
  : list (Event (Err T)) :=
  snd (snd (getDeviceStatus (spy i) (w, []))).

(** [m'] is [m] with its calls observed: the same result and the same
    device state, and a log that only grows. *)
Definition observes {W E A} (m : M W E A) (m' : M (W * list (Event E)) E A)
  : Prop :=
  forall w l, exists l', m' (w, l) = (fst (m w), (snd (m w), l ++ l')).

Definition all_returned {E} (log : list (Event E)) : Prop :=
  Forall (fun ev => thrown ev = None) log.

(** A run that returns has seen no call throw; a run that throws [e] has
    seen [e] thrown by its last call and no call throw before. *)
Definition stops_at_first_throw {E A} (r : Result E A) (log : list (Event E))
  : Prop :=
  match r with
  | Ok _ => all_returned log
  | Throw e => exists pre c, log = pre ++ [threw c e] /\ all_returned pre
  end.

Definition fail_fast {W E A} (m : M (W * list (Event E)) E A) : Prop :=
  forall w l,
    all_returned l ->
    stops_at_first_throw (fst (m (w, l))) (snd (snd (m (w, l)))).

(** The reads [listContent] makes before the groups, and for one track. *)
Definition header_calls : list Call :=
  [CgetDiscFlags; CgetDiscTitle; CgetDiscCapacity; CgetTrackCount;
   CgetTrackGroupList].

Definition track_calls (track : Z) : list Call :=
  [CgetTrackTitle track; CgetTrackEncoding track; CgetTrackLength track;
   CgetTrackFlags track].

(** The calls of [download] after the cleanup, up to [release]. *)
Definition transfer_calls : list Call :=
  [Cacquire; CdisableNewTrackProtection 1; CnewEKBOpenSource; CnewMDSession;
   Cinit; CdownloadTrack; Cclose; Crelease].

(** The calls a run of [download] can make. *)
Definition download_calls : list Call :=
  CsessionKeyForget :: CleaveSecureSession :: transfer_calls.

(** A track whose fields are the answers of four reads made one after the
    other for its index. *)
Definition track_read {T W} (i : NetMDInterface T W) (tr : Track.t) : Prop :=
  exists w0 w1 w2 w3 w4 len,
    getTrackTitle i (Track.index tr) w0 = (Ok (Track.title tr), w1) /\
    getTrackEncoding i (Track.index tr) w1
      = (Ok (Track.encoding tr, Track.channel tr), w2) /\
    getTrackLength i (Track.index tr) w2 = (Ok len, w3) /\
    Track.duration tr = timeToFrames len /\
    getTrackFlags i (Track.index tr) w3 = (Ok (Track.protected tr), w4).

(** ** Scripted browsers *)

Definition ScriptedUsb : UsbTypes :=
  {| UsbErr := string;
     Logger := unit;
     NetMD := USBDevice;
     Interface := USBDevice |}.

Record UsbScript : Type := {
  known : list DeviceId;
  paired : list USBDevice;
  chosen : option USBDevice;
  init_error : option string;
}.

Definition scripted_usb (s : UsbScript) : UsbEnv ScriptedUsb unit :=
  Build_UsbEnv ScriptedUsb unit
    (known s)
    (ret (paired s))
    (fun _ =>
       match chosen s with
       | Some d => ret d
       | None => throw "no device selected"%string
       end)
    (fun d _ _ => ret d)
    (fun _ =>
       match init_error s with
       | Some e => throw e
       | None => ret tt
       end)
    (fun n _ => ret n).

Definition known_devices : list DeviceId :=
  [ {| id_vendorId := 1245; id_deviceId := 29186;
       id_name := Some "Sharp IM-MT899H"%string |};
    {| id_vendorId := 1356; id_deviceId := 117;
       id_name := Some "Sony MZ-N1"%string |};
    {| id_vendorId := 1356; id_deviceId := 117;
       id_name := Some "Sony MZ-N1 (second entry)"%string |} ].

Definition sony_n1 : USBDevice :=
  {| vendorId := 1356; productId := 117;
     manufacturerName := Some "Sony"%string; productName := None |}.

Definition stranger : USBDevice :=
  {| vendorId := 1; productId := 2;
     manufacturerName := None; productName := None |}.

(** A browser with two paired devices, where the user picks the Sony. *)
Definition browser : UsbScript :=
  {| known := known_devices;
     paired := [sony_n1; stranger];
     chosen := Some sony_n1;
     init_error := None |}.

(** A browser where the user dismisses the device chooser. *)
Definition chooser_dismissed : UsbScript :=
  {| known := known_devices;
     paired := [];
     chosen := None;
     init_error := None |}.

(** A browser whose device does not answer [init]. *)
Definition init_breaks : UsbScript :=
  {| known := known_devices;
     paired := [sony_n1];
     chosen := Some sony_n1;
     init_error := Some "claim failed"%string |}.

(** The device of [two_groups] with a read of [listContent] throwing. *)
Definition length_read_fails : Script :=
  with_failures [(CgetTrackLength 1, "read failed"%string)] two_groups.
Definition position_fails : Script :=
  with_failures [(CgetPosition, "no position"%string)] two_groups.

(** ** Interfaces with other best-effort operations

    To say that a failure of a best-effort step changes nothing of what
    follows, [download] is compared on interfaces that differ only in
    [sessionKeyForget], [leaveSecureSession] and
    [disableNewTrackProtection]. *)

(** [m] with a throw turned into a return; the effect on the device is
    kept. *)
Definition quiet {W E} (m : M W E unit) : M W E unit :=
  fun w => (Ok tt, snd (m w)).

Definition with_best_effort {T W} (i : NetMDInterface T W)
    (forget leave : M W (Err T) unit) (protect : Z -> M W (Err T) unit)
  : NetMDInterface T W :=
  {| getStatus := getStatus i;
     getPlaybackStatus2 := getPlaybackStatus2 i;
     getPosition := getPosition i;
     DiscFlag_writable := DiscFlag_writable i;
     DiscFlag_writeProtected := DiscFlag_writeProtected i;
     getDiscFlags := getDiscFlags i;
     getDiscTitle := getDiscTitle i;
     getDiscCapacity := getDiscCapacity i;
     getTrackCount := getTrackCount i;
     getTrackGroupList := getTrackGroupList i;
     getTrackTitle := getTrackTitle i;
     getTrackEncoding := getTrackEncoding i;
     getTrackLength := getTrackLength i;
     getTrackFlags := getTrackFlags i;
     sessionKeyForget := forget;
     leaveSecureSession := leave;
     acquire := acquire i;
     release := release i;
     disableNewTrackProtection := protect;
     EKBOpenSource_new := EKBOpenSource_new i;
     MDSession_new := MDSession_new i;
     MDSession_init := MDSession_init i;
     MDSession_downloadTrack := MDSession_downloadTrack i;
     MDSession_close := MDSession_close i |}.

(** The interface [i] with cleanup calls that return at once and leave the
    device as it is. *)
Definition without_cleanup {T W} (i : NetMDInterface T W) : NetMDInterface T W :=
  with_best_effort i (ret tt) (ret tt) (disableNewTrackProtection i).

(** The interface [i] with a [disableNewTrackProtection] that never
    throws. *)
Definition with_quiet_protection {T W} (i : NetMDInterface T W)
  : NetMDInterface T W :=
  with_best_effort i (sessionKeyForget i) (leaveSecureSession i)
    (fun v => quiet (disableNewTrackProtection i v)).

(** The steps of [download] from [acquire] on that are followed by another
    step when they return, each with the step that follows it. *)
Definition following_step : list (Call * Call) :=
  [(Cacquire, CdisableNewTrackProtection 1);
   (CnewEKBOpenSource, CnewMDSession);
   (CnewMDSession, Cinit);
   (Cinit, CdownloadTrack);
   (CdownloadTrack, Cclose);
   (Cclose, Crelease)].

(** * Properties *)

(** ** Running awaited computations *)

Lemma bind_run {W E A B} (m : M W E A) (k : A -> M W E B) (w : W) :
  bind m k w =
    match m w with
    | (Ok a, w') => k a w'
    | (Throw e, w') => (Throw e, w')
    end.
Proof. reflexivity. Qed.

Lemma bind_Ok_inv {W E A B} (m : M W E A) (k : A -> M W E B) w b w' :
  bind m k w = (Ok b, w') ->
  exists a w1, m w = (Ok a, w1) /\ k a w1 = (Ok b, w').
Proof.
  rewrite bind_run. destruct (m w) as [[a | e] w1]; [| discriminate].
  intros H. exists a, w1. split; [reflexivity | exact H].
Qed.

Lemma ret_Ok_inv {W E A} (a b : A) (w w' : W) :
  @ret W E A a w = (Ok b, w') -> a = b /\ w = w'.
Proof. unfold ret. intros H. split; congruence. Qed.

(** ** Arithmetic of the status word *)

Lemma of_byte_range (b : Byte.byte) : 0 <= Js.of_byte b < 256.
Proof.
  unfold Js.of_byte. pose proof (Byte.to_N_bounded b). lia.
Qed.

Lemma wrap32_small (z : Z) : - 2 ^ 31 <= z < 2 ^ 31 -> Js.wrap32 z = z.
Proof.
  intros Hz. unfold Js.wrap32.
  rewrite Z.mod_small by lia. lia.
Qed.

Lemma land_shifted_byte (hi lo : Z) :
  0 <= lo < 256 -> Z.land (Z.shiftl hi 8) lo = 0.
Proof.
  intros Hlo. apply Z.bits_inj'. intros n Hn.
  rewrite Z.land_spec, Z.bits_0.
  destruct (Z.lt_ge_cases n 8) as [Hlt | Hge].
  - rewrite Z.shiftl_spec_low by lia. reflexivity.
  - destruct (Z.eq_dec lo 0) as [-> | Hne].
    + rewrite Z.bits_0. apply andb_false_r.
    + rewrite (Z.bits_above_log2 lo n); [apply andb_false_r | lia |].
      assert (Z.log2 lo < 8) by (apply Z.log2_lt_pow2; lia). lia.
Qed.

Lemma lor_shifted_byte (hi lo : Z) :
  0 <= lo < 256 -> Z.lor (Z.shiftl hi 8) lo = hi * 256 + lo.
Proof.
  intros Hlo.
  rewrite <- Z.add_nocarry_lor by (apply land_shifted_byte; exact Hlo).
  rewrite Z.shiftl_mul_pow2 by lia. reflexivity.
Qed.

Lemma byte_or_0_range buf i : 0 <= byte_or_0 buf i < 256.
Proof.
  unfold byte_or_0. destruct (buf !! i) as [b|]; [apply of_byte_range | lia].
Qed.

Lemma ToInt32_at_byte buf i : Js.ToInt32 (Js.at_byte buf i) = byte_or_0 buf i.
Proof.
  unfold Js.at_byte, byte_or_0.
  destruct (buf !! i) as [b|]; simpl; [| reflexivity].
  apply wrap32_small. pose proof (of_byte_range b). lia.
Qed.

Lemma operatingStatusOf_lor (pb : list Byte.byte) :
  operatingStatusOf pb = Z.lor (Z.shiftl (byte_or_0 pb 4) 8) (byte_or_0 pb 5).
Proof.
  unfold operatingStatusOf, Js.bor, Js.shl.
  rewrite !ToInt32_at_byte.
  pose proof (byte_or_0_range pb 4) as H4.
  pose proof (byte_or_0_range pb 5) as H5.
  change (8 mod 32) with 8.
  assert (Hs : Z.shiftl (byte_or_0 pb 4) 8 = byte_or_0 pb 4 * 256)
    by (rewrite Z.shiftl_mul_pow2 by lia; reflexivity).
  assert (Hl : Z.lor (Z.shiftl (byte_or_0 pb 4) 8) (byte_or_0 pb 5)
               = byte_or_0 pb 4 * 256 + byte_or_0 pb 5)
    by (apply lor_shifted_byte; exact H5).
  rewrite (wrap32_small (Z.shiftl _ 8)) by lia.
  rewrite (wrap32_small (Z.shiftl _ 8)) by lia.
  rewrite (wrap32_small (byte_or_0 pb 5)) by lia.
  apply wrap32_small. lia.
Qed.

Lemma operatingStatusOf_big_endian (pb : list Byte.byte) :
  operatingStatusOf pb = byte_or_0 pb 4 * 256 + byte_or_0 pb 5.
Proof.
  rewrite operatingStatusOf_lor. apply lor_shifted_byte, byte_or_0_range.
Qed.

(** The lookup table, read as a chain of comparisons. *)
Lemma lookupState_cases (v : Z) :
  lookupState v =
    if v =? 50687 then ready
    else if v =? 50037 then playing
    else if v =? 49983 then fastForward
    else if v =? 49999 then rewind
    else if v =? 65315 then readingTOC
    else unknown.
Proof.
  unfold lookupState, OperatingStatus.
  repeat match goal with
         | |- context [?k =? ?c] =>
             destruct (Z.eqb_spec k c) as [-> | ?];
             [ reflexivity | rewrite (lookup_insert_ne _ c k) by congruence ]
         end.
  rewrite lookup_empty. reflexivity.
Qed.

Example lookupState_50687 : lookupState 50687 = ready.
Proof. rewrite lookupState_cases. reflexivity. Qed.

Example lookupState_12345 : lookupState 12345 = unknown.
Proof. rewrite lookupState_cases. reflexivity. Qed.

Lemma state_decodeStatus status pb pos :
  state (decodeStatus status pb pos) =
    if bool_decide (lookupState (operatingStatusOf pb) = playing)
       && negb (discPresent (decodeStatus status pb pos))
    then ready else lookupState (operatingStatusOf pb).
Proof. reflexivity. Qed.

Lemma of_byte_64 (b : Byte.byte) : Js.of_byte b = 64 <-> b = Byte.x40.
Proof.
  split; [| intros ->; reflexivity].
  intros H. unfold Js.of_byte in H.
  assert (HN : Byte.to_N b = 64%N) by lia.
  apply Byte.to_of_N_iff in HN. vm_compute in HN. congruence.
Qed.

Lemma discPresent_decodeStatus status pb pos :
  discPresent (decodeStatus status pb pos) = true <-> status !! 4%nat = Some Byte.x40.
Proof.
  simpl. unfold Js.at_byte.
  destruct (status !! 4%nat) as [b|]; simpl.
  - rewrite Z.eqb_eq, of_byte_64. split; congruence.
  - split; discriminate.
Qed.

(** ** Status decoder: the state of a decoded status *)

(** [getDeviceStatus] returns the decoding of its three reads, and returns
    whenever the three reads do. *)
Lemma getDeviceStatus_run {T W} (i : NetMDInterface T W) (w : W) :
  getDeviceStatus i w =
    match getStatus i w with
    | (Ok status, w1) =>
        match getPlaybackStatus2 i w1 with
        | (Ok pb, w2) =>
            match getPosition i w2 with
            | (Ok pos, w3) => (Ok (decodeStatus status pb pos), w3)
            | (Throw e, w3) => (Throw e, w3)
            end
        | (Throw e, w2) => (Throw e, w2)
        end
    | (Throw e, w1) => (Throw e, w1)
    end.
Proof.
  unfold getDeviceStatus. rewrite bind_run.
  destruct (getStatus i w) as [[status | e] w1]; [| reflexivity].
  rewrite bind_run.
  destruct (getPlaybackStatus2 i w1) as [[pb | e] w2]; [| reflexivity].
  rewrite bind_run.
  destruct (getPosition i w2) as [[pos | e] w3]; reflexivity.
Qed.

(** C4, as the code has it: for every input the operating status is
    [(high << 8) | low = high * 256 + low] for the bytes 4 and 5 of the
    playback-status buffer (0 for a byte the buffer does not have), and the
    state is ready for 50687, fastForward for 49983, rewind for 49999,
    readingTOC for 65315, unknown for every other code but 50037; for 50037
    it is playing when the disc is present and ready when it is not. *)
Theorem decodeStatus_state_table (status pb : list Byte.byte)
    (pos : option (list Z)) :
  let v := operatingStatusOf pb in
  let ds := decodeStatus status pb pos in
  v = Z.lor (Z.shiftl (byte_or_0 pb 4) 8) (byte_or_0 pb 5) /\
  v = byte_or_0 pb 4 * 256 + byte_or_0 pb 5 /\
  0 <= v < 65536 /\
  state ds =
    if v =? 50687 then ready
    else if v =? 50037 then (if discPresent ds then playing else ready)
    else if v =? 49983 then fastForward
    else if v =? 49999 then rewind
    else if v =? 65315 then readingTOC
    else unknown.
Proof.
  intros v ds. subst v ds.
  split; [apply operatingStatusOf_lor |].
  split; [apply operatingStatusOf_big_endian |].
  split.
  - rewrite operatingStatusOf_big_endian.
    pose proof (byte_or_0_range pb 4). pose proof (byte_or_0_range pb 5). lia.
  - rewrite state_decodeStatus, lookupState_cases.
    destruct (discPresent (decodeStatus status pb pos));
      repeat (destruct (_ =? _); [reflexivity |]); reflexivity.
Qed.

(** C4, as the claim states it, fails: the playback-status bytes 0xC3, 0x75
    give the code 50037, and with byte 4 of the status buffer at 0 the
    decoded state is ready, not playing. *)
Lemma playing_code_without_disc_is_ready :
  operatingStatusOf playback_playing = 50037 /\
  state (decodeStatus status_no_disc playback_playing None) = ready /\
  state (decodeStatus status_no_disc playback_playing None) <> playing.
Proof. vm_compute. repeat split; congruence. Qed.

(** C5: [discPresent] is true exactly when byte 4 of the status buffer is
    0x40; a status without disc is never playing; and when the table gives
    playing and the disc is absent the state is ready. *)
Theorem decodeStatus_disc_absent_not_playing (status pb : list Byte.byte)
    (pos : option (list Z)) :
  let ds := decodeStatus status pb pos in
  (discPresent ds = true <-> status !! 4%nat = Some Byte.x40) /\
  (discPresent ds = false -> state ds <> playing) /\
  (lookupState (operatingStatusOf pb) = playing ->
   discPresent ds = false -> state ds = ready).
Proof.
  intros ds. subst ds.
  split; [apply discPresent_decodeStatus |].
  rewrite state_decodeStatus.
  split.
  - intros ->. simpl. rewrite andb_true_r.
    case_bool_decide as Hp; [discriminate | exact Hp].
  - intros Hp ->. rewrite Hp. reflexivity.
Qed.

Lemma decodeStatus_disc_absent_not_playing_witness :
  discPresent (decodeStatus status_no_disc playback_playing None) = false /\
  state (decodeStatus status_no_disc playback_playing None) = ready.
Proof.
  split; [reflexivity |].
  apply (decodeStatus_disc_absent_not_playing status_no_disc playback_playing None);
    reflexivity.
Defined.

(** ** Counting and flattening tracks *)

Lemma push_all (ts acc : list Track.t) :
  fold_left (fun tracks track => tracks ++ [track]) ts acc = acc ++ ts.
Proof.
  revert acc. induction ts as [| t ts IH]; intros acc; simpl.
  - rewrite app_nil_r. reflexivity.
  - rewrite IH, <- app_assoc. reflexivity.
Qed.

Lemma flatten_from (gs : list Group.t) (acc : list Track.t) :
  fold_left
    (fun tracks group =>
       fold_left (fun tracks track => tracks ++ [track])
                 (Group.tracks group) tracks)
    gs acc
  = acc ++ concat (map Group.tracks gs).
Proof.
  revert acc. induction gs as [| g gs IH]; intros acc; simpl.
  - rewrite app_nil_r. reflexivity.
  - rewrite IH, push_all, <- app_assoc. reflexivity.
Qed.

Lemma getTracks_concat (d : Disc) :
  getTracks d = concat (map Group.tracks (Disc.groups d)).
Proof. unfold getTracks. apply flatten_from. Qed.

Lemma count_from (gs : list Group.t) (acc : Z) :
  fold_left (fun acc g => acc + Z.of_nat (length (Group.tracks g))) gs acc
  = acc + Z.of_nat (length (concat (map Group.tracks gs))).
Proof.
  revert acc. induction gs as [| g gs IH]; intros acc; simpl.
  - lia.
  - rewrite IH, length_app. lia.
Qed.

(** C6: for every disc, whatever its groups hold, [countTracksInDisc]
    equals the length of [getTracks]. *)
Theorem countTracksInDisc_getTracks (d : Disc) :
  countTracksInDisc d = Z.of_nat (length (getTracks d)).
Proof.
  unfold countTracksInDisc. rewrite count_from, getTracks_concat. lia.
Qed.

(** ** The loops of [listContent] *)

Section ContentLoops.
Context {T : Types} {W : Type}.
Variable i : NetMDInterface T W.

Lemma inner_loop_readTracks (ts : list Z) (k : Z) (acc : list Track.t) (w : W) :
  for_of (fun tracks '(trackIndex, track) =>
            let! t := readTrack i track in
            ret (tracks ++ [t]))
         (entries_from k ts) acc w
  = match readTracks i ts w with
    | (Ok xs, w') => (Ok (acc ++ xs), w')
    | (Throw e, w') => (Throw e, w')
    end.
Proof.
  revert k acc w. induction ts as [| t ts IH]; intros k acc w; simpl.
  - unfold ret. rewrite app_nil_r. reflexivity.
  - rewrite !bind_run.
    destruct (readTrack i t w) as [[x | e] w1]; [| reflexivity].
    cbn [ret]. rewrite IH, bind_run.
    destruct (readTracks i ts w1) as [[xs | e] w2]; [| reflexivity].
    cbn [ret]. rewrite <- app_assoc. reflexivity.
Qed.

Lemma with_groups_twice {G1 G2 G3} (d : Disc.t G1) (a : list G2) (b : list G3) :
  with_groups (with_groups d a) b = with_groups d b.
Proof. reflexivity. Qed.

Lemma readGroup_run (disc : Disc.t nat) (store : GroupStore)
    (k : Z) (name : option string) (ts : list Z) (w : W) :
  readGroup i (disc, store) (k, (name, ts)) w
  = match readTracks i ts w with
    | (Ok xs, w') =>
        (Ok (push_group disc (length store),
             store ++ [{| Group.index := k; Group.title := name;
                          Group.tracks := xs |}]), w')
    | (Throw e, w') => (Throw e, w')
    end.
Proof.
  unfold readGroup, entries. rewrite bind_run, inner_loop_readTracks.
  destruct (readTracks i ts w) as [[xs | e] w1]; [| reflexivity].
  cbn [ret]. do 2 f_equal. f_equal.
  rewrite <- (Nat.add_0_r (length store)), alter_app_r.
  reflexivity.
Qed.

Lemma outer_loop_readGroups (tgl : list (option string * list Z)) (k : Z)
    (disc : Disc.t nat) (store : GroupStore) (w : W) :
  for_of (readGroup i) (entries_from k tgl) (disc, store) w
  = match readGroups i k tgl w with
    | (Ok gs, w') =>
        (Ok (with_groups disc
               (Disc.groups disc ++ seq (length store) (length gs)),
             store ++ gs), w')
    | (Throw e, w') => (Throw e, w')
    end.
Proof.
  revert k disc store w.
  induction tgl as [| [name ts] tgl IH]; intros k disc store w.
  - cbn. rewrite !app_nil_r. destruct disc; reflexivity.
  - cbn [entries_from for_of readGroups].
    rewrite !bind_run, readGroup_run.
    destruct (readTracks i ts w) as [[xs | e] w1]; [| reflexivity].
    rewrite IH, bind_run.
    destruct (readGroups i (k + 1) tgl w1) as [[gs | e] w2]; [| reflexivity].
    cbn [ret]. unfold push_group.
    rewrite with_groups_twice. cbn [with_groups Disc.groups].
    rewrite length_app, <- !app_assoc. cbn [length app].
    rewrite Nat.add_1_r. reflexivity.
Qed.

Lemma follow_all (pre gs : list Group.t) :
  omap (fun g => (pre ++ gs) !! g) (seq (length pre) (length gs)) = gs.
Proof.
  revert pre. induction gs as [| g gs IH]; intros pre; [reflexivity |].
  cbn [length seq omap list_omap].
  rewrite lookup_app_r by lia. rewrite Nat.sub_diag. cbn.
  f_equal.
  specialize (IH (pre ++ [g])).
  rewrite <- app_assoc, length_app, Nat.add_1_r in IH. exact IH.
Qed.

End ContentLoops.

(** ** What a successful [listContent] has read *)

Section ContentFacts.
Context {T : Types} {W : Type}.
Variable i : NetMDInterface T W.

Lemma readTrack_Ok (track : Z) (w w' : W) (tr : Track.t) :
  readTrack i track w = (Ok tr, w') ->
  Track.index tr = track /\ duration_read i tr.
Proof.
  unfold readTrack. intros H.
  apply bind_Ok_inv in H as (title & w1 & _ & H).
  apply bind_Ok_inv in H as ([codec channel] & w2 & _ & H).
  apply bind_Ok_inv in H as (len & w3 & Hlen & H).
  apply bind_Ok_inv in H as (flags & w4 & _ & H).
  apply ret_Ok_inv in H as [<- _]. cbn.
  split; [reflexivity |].
  exists len, w2, w3. split; [exact Hlen | reflexivity].
Qed.

Lemma readTracks_Ok (ts : list Z) (w w' : W) (xs : list Track.t) :
  readTracks i ts w = (Ok xs, w') ->
  map Track.index xs = ts /\ Forall (duration_read i) xs.
Proof.
  revert w w' xs. induction ts as [| t ts IH]; intros w w' xs H; cbn in H.
  - apply ret_Ok_inv in H as [<- _]. split; [reflexivity | constructor].
  - apply bind_Ok_inv in H as (x & w1 & Hx & H).
    apply bind_Ok_inv in H as (xs' & w2 & Hxs & H).
    apply ret_Ok_inv in H as [<- _].
    apply readTrack_Ok in Hx as [Hi Hd].
    apply IH in Hxs as [Hm Hf].
    split; [cbn; congruence | constructor; assumption].
Qed.

Lemma readGroups_Ok (tgl : list (option string * list Z)) (k : Z)
    (w w' : W) (gs : list Group.t) :
  readGroups i k tgl w = (Ok gs, w') ->
  map Group.title gs = map fst tgl /\
  map (fun g => map Track.index (Group.tracks g)) gs = map snd tgl /\
  (forall (n : nat) g, gs !! n = Some g -> Group.index g = k + Z.of_nat n) /\
  Forall (duration_read i) (concat (map Group.tracks gs)).
Proof.
  revert k w w' gs.
  induction tgl as [| [name ts] tgl IH]; intros k w w' gs H; cbn in H.
  - apply ret_Ok_inv in H as [<- _].
    repeat split; try constructor. intros n g Hn. discriminate.
  - apply bind_Ok_inv in H as (xs & w1 & Hxs & H).
    apply bind_Ok_inv in H as (gs' & w2 & Hgs & H).
    apply ret_Ok_inv in H as [<- _].
    apply readTracks_Ok in Hxs as [Hm Hf].
    apply IH in Hgs as (Ht & Hs & Hi & Hd).
    cbn. repeat split; try congruence.
    + intros [| n] g Hn; cbn in Hn.
      * injection Hn as <-. cbn. lia.
      * apply Hi in Hn. lia.
    + apply Forall_app. split; assumption.
Qed.

Lemma listContent_Ok (w w' : W) (d : Disc) :
  listContent i w = (Ok d, w') ->
  exists flags title used total left n tgl w1 w2 w3 w4 w5,
    getDiscFlags i w = (Ok flags, w1) /\
    getDiscTitle i w1 = (Ok title, w2) /\
    getDiscCapacity i w2 = (Ok (used, total, left), w3) /\
    getTrackCount i w3 = (Ok n, w4) /\
    getTrackGroupList i w4 = (Ok tgl, w5) /\
    exists gs,
      readGroups i 0 tgl w5 = (Ok gs, w') /\
      Disc.title d = title /\
      Disc.used d = timeToFrames used /\
      Disc.left d = timeToFrames left /\
      Disc.total d = timeToFrames total /\
      Disc.trackCount d = n /\
      Disc.groups d = gs.
Proof.
  unfold listContent. intros H.
  apply bind_Ok_inv in H as (flags & w1 & H1 & H).
  apply bind_Ok_inv in H as (title & w2 & H2 & H).
  apply bind_Ok_inv in H as ([[used total] left] & w3 & H3 & H).
  apply bind_Ok_inv in H as (n & w4 & H4 & H).
  apply bind_Ok_inv in H as (tgl & w5 & H5 & H).
  apply bind_Ok_inv in H as ([disc store] & w6 & H6 & H).
  apply ret_Ok_inv in H as [<- <-].
  unfold entries in H6. rewrite outer_loop_readGroups in H6.
  destruct (readGroups i 0 tgl w5) as [[gs | e] w7] eqn:Hgs; [| discriminate].
  injection H6 as <- <- <-.
  exists flags, title, used, total, left, n, tgl, w1, w2, w3, w4, w5.
  repeat (split; [assumption |]).
  exists gs. split; [exact Hgs |].
  repeat (split; [reflexivity |]).
  unfold deref. cbn [with_groups Disc.groups app length].
  apply (follow_all [] gs).
Qed.

End ContentFacts.

Lemma readGroups_indices {T W} (i : NetMDInterface T W)
    (tgl : list (option string * list Z)) (k : Z) (w w' : W) (gs : list Group.t) :
  readGroups i k tgl w = (Ok gs, w') ->
  map Group.index gs = map fst (entries_from k tgl).
Proof.
  revert k w w' gs.
  induction tgl as [| [name ts] tgl IH]; intros k w w' gs H; cbn in H.
  - apply ret_Ok_inv in H as [<- _]. reflexivity.
  - apply bind_Ok_inv in H as (xs & w1 & _ & H).
    apply bind_Ok_inv in H as (gs' & w2 & Hgs & H).
    apply ret_Ok_inv in H as [<- _].
    cbn. f_equal. eapply IH, Hgs.
Qed.

Lemma concat_map_map {A B C} (f : B -> C) (g : A -> list B) (l : list A) :
  map f (concat (map g l)) = concat (map (fun a => map f (g a)) l).
Proof.
  induction l as [| a l IH]; [reflexivity |].
  cbn. rewrite map_app, IH. reflexivity.
Qed.

Lemma listContent_track_indices {T W} (i : NetMDInterface T W) (w w' : W) (d : Disc) :
  listContent i w = (Ok d, w') ->
  exists n tgl w1 w2 w3,
    getTrackCount i w1 = (Ok n, w2) /\
    getTrackGroupList i w2 = (Ok tgl, w3) /\
    Disc.trackCount d = n /\
    map Track.index (getTracks d) = concat (map snd tgl) /\
    map Group.index (Disc.groups d) = map fst (entries tgl) /\
    (forall (p : nat) g, Disc.groups d !! p = Some g -> Group.index g = Z.of_nat p).
Proof.
  intros H.
  apply listContent_Ok in H
    as (flags & title & used & total & left & n & tgl & w1 & w2 & w3 & w4 & w5 &
        _ & _ & _ & Hn & Htgl & gs & Hgs & _ & _ & _ & _ & Hc & Hg).
  exists n, tgl, w3, w4, w5.
  pose proof (readGroups_indices _ _ _ _ _ _ Hgs) as Hidx.
  apply readGroups_Ok in Hgs as (_ & Hs & Hp & _).
  repeat (split; [assumption |]).
  rewrite getTracks_concat, Hg, concat_map_map, Hs.
  repeat split; [exact Hidx |].
  intros p g Hl. rewrite (Hp p g Hl). lia.
Qed.

(** ** Content model: order, partition, frames *)

(** C7: [getTracks] is the concatenation of the groups' track lists, in
    group order and then in-group order; a disc that [listContent] built
    from a track-group list has, flattened, the track indices of that list
    in order, and its groups carry their positions as indices; for the
    list [("A",[0,1]), ("B",[2])] these are [0,1,2] and [0,1]. *)
Theorem getTracks_in_group_order {T W} (i : NetMDInterface T W) :
  (forall d : Disc, getTracks d = concat (map Group.tracks (Disc.groups d))) /\
  (forall (w w' : W) (d : Disc),
     listContent i w = (Ok d, w') ->
     exists tgl wa wb,
       getTrackGroupList i wa = (Ok tgl, wb) /\
       map Track.index (getTracks d) = concat (map snd tgl) /\
       (forall (p : nat) g,
          Disc.groups d !! p = Some g -> Group.index g = Z.of_nat p) /\
       (tgl = [(Some "A"%string, [0; 1]); (Some "B"%string, [2])] ->
        map Track.index (getTracks d) = [0; 1; 2] /\
        map Group.index (Disc.groups d) = [0; 1])).
Proof.
  split; [exact getTracks_concat |].
  intros w w' d H.
  apply listContent_track_indices in H
    as (n & tgl & w1 & w2 & w3 & _ & Htgl & _ & Hidx & Hgidx & Hpos).
  exists tgl, w2, w3.
  repeat (split; [assumption |]).
  intros ->. split; assumption.
Qed.

Lemma getTracks_in_group_order_witness :
  exists d,
    listContent (scripted two_groups) tt = (Ok d, tt) /\
    map Track.index (getTracks d) = [0; 1; 2] /\
    map Group.index (Disc.groups d) = [0; 1].
Proof.
  eexists. split; [vm_compute; reflexivity |].
  match goal with
  | |- map _ (getTracks ?d) = _ /\ _ =>
      destruct (proj2 (getTracks_in_group_order (scripted two_groups)) tt tt d)
        as (tgl & wa & wb & Htgl & _ & _ & Hex); [vm_compute; reflexivity |]
  end.
  apply Hex. destruct wa. vm_compute in Htgl. congruence.
Defined.

(** C8, as the code has it: a disc built by [listContent] carries as
    [trackCount] the number the device gave, and as track indices, over all
    groups in order, those of the track-group list the device gave;
    [listContent] compares neither with the other.  So when that list
    holds every index from 0 up to the track count once, the indices of
    the disc have no duplicates and no gaps and are [trackCount] many. *)
Theorem listContent_tracks_as_reported {T W} (i : NetMDInterface T W)
    (w w' : W) (d : Disc) :
  listContent i w = (Ok d, w') ->
  exists n tgl w1 w2 w3,
    getTrackCount i w1 = (Ok n, w2) /\
    getTrackGroupList i w2 = (Ok tgl, w3) /\
    Disc.trackCount d = n /\
    map Track.index (getTracks d) = concat (map snd tgl) /\
    (0 <= n ->
     Permutation (concat (map snd tgl)) (seqZ 0 n) ->
     NoDup (map Track.index (getTracks d)) /\
     (forall k, In k (map Track.index (getTracks d)) <-> 0 <= k < Disc.trackCount d) /\
     Z.of_nat (length (map Track.index (getTracks d))) = Disc.trackCount d).
Proof.
  intros H.
  apply listContent_track_indices in H
    as (n & tgl & w1 & w2 & w3 & Hn & Htgl & Hc & Hidx & _ & _).
  exists n, tgl, w1, w2, w3.
  repeat (split; [assumption |]).
  intros Hn0 Hperm. rewrite Hidx, Hc.
  split; [| split].
  - rewrite Hperm. apply NoDup_seqZ.
  - intros k. rewrite <- list_elem_of_In, Hperm, elem_of_seqZ. lia.
  - rewrite (Permutation_length Hperm), length_seqZ. lia.
Qed.

Lemma listContent_tracks_as_reported_witness :
  exists d,
    listContent (scripted two_groups) tt = (Ok d, tt) /\
    Disc.trackCount d = 3 /\
    map Track.index (getTracks d) = [0; 1; 2].
Proof.
  eexists. split; [vm_compute; reflexivity |].
  match goal with
  | |- Disc.trackCount ?d = _ /\ _ =>
      destruct (listContent_tracks_as_reported (scripted two_groups) tt tt d)
        as (n & tgl & [] & [] & w3 & Hn & Htgl & Hc & Hidx & _);
        [vm_compute; reflexivity |]
  end.
  vm_compute in Hn, Htgl.
  split; [rewrite Hc | rewrite Hidx]; [congruence |].
  injection Htgl as <- _. reflexivity.
Defined.

(** C8, as the claim states it, fails: on a device that counts two tracks
    and lists a group over the indices 0 to 2, [listContent] returns a
    disc with [trackCount] 2 whose track indices are [0, 1, 2]: three
    indices against two tracks, one of them no track index of the
    device. *)
Lemma listContent_group_beyond_track_count :
  exists d,
    listContent (scripted overlong_group) tt = (Ok d, tt) /\
    Disc.trackCount d = 2 /\
    map Track.index (getTracks d) = [0; 1; 2] /\
    In 2 (map Track.index (getTracks d)) /\
    ~ (0 <= 2 < Disc.trackCount d) /\
    Z.of_nat (length (map Track.index (getTracks d))) <> Disc.trackCount d.
Proof.
  eexists. split; [vm_compute; reflexivity |].
  split; [reflexivity |]. split; [reflexivity |].
  split; [| split].
  - cbn. right. right. left. reflexivity.
  - cbn. lia.
  - cbn. discriminate.
Qed.

(** C9: one minute, two seconds and ten frames are 4660 frames; the
    conversion is minutes x 60 x 75 + seconds x 75 + frames; and in a disc
    built by [listContent] the three capacities are the conversions of the
    capacity triple the device gave (used, total, left, in that order) and
    every track's duration is the conversion of a length the device gave
    for that track. *)
Theorem listContent_converts_to_frames {T W} (i : NetMDInterface T W) :
  timeToFrames {| minutes := 1; seconds := 2; frames := 10 |} = 4660 /\
  (forall t, timeToFrames t = minutes t * 60 * 75 + seconds t * 75 + frames t) /\
  (forall (w w' : W) (d : Disc),
     listContent i w = (Ok d, w') ->
     (exists used total left wa wb,
        getDiscCapacity i wa = (Ok (used, total, left), wb) /\
        Disc.used d = timeToFrames used /\
        Disc.left d = timeToFrames left /\
        Disc.total d = timeToFrames total) /\
     (forall tr, In tr (getTracks d) ->
        exists len wa wb,
          getTrackLength i (Track.index tr) wa = (Ok len, wb) /\
          Track.duration tr = timeToFrames len)).
Proof.
  split; [reflexivity |]. split; [reflexivity |].
  intros w w' d H.
  apply listContent_Ok in H
    as (flags & title & used & total & left & n & tgl & w1 & w2 & w3 & w4 & w5 &
        _ & _ & Hcap & _ & _ & gs & Hgs & _ & Hu & Hl & Ht & _ & Hg).
  split.
  - exists used, total, left, w2, w3. repeat split; assumption.
  - apply readGroups_Ok in Hgs as (_ & _ & _ & Hd).
    intros tr Hin. rewrite getTracks_concat, Hg in Hin.
    rewrite List.Forall_forall in Hd. exact (Hd tr Hin).
Qed.

Lemma listContent_converts_to_frames_witness :
  exists d,
    listContent (scripted two_groups) tt = (Ok d, tt) /\
    Disc.used d = 4660 /\
    map Track.duration (getTracks d) = [160; 4660; 9160].
Proof.
  eexists. split; [vm_compute; reflexivity |].
  match goal with
  | |- Disc.used ?d = _ /\ _ =>
      destruct (proj2 (proj2 (listContent_converts_to_frames (scripted two_groups)))
                  tt tt d)
        as [(used & total & left & [] & wb & Hcap & Hu & _) _];
        [vm_compute; reflexivity |]
  end.
  vm_compute in Hcap. injection Hcap as <- _ _ _.
  split; [rewrite Hu |]; reflexivity.
Defined.

(** ** The runs of [download] *)

Section DownloadRuns.
Context {T : Types} {W : Type}.
Variable i : NetMDInterface T W.
Variable track : MDTrack T.
Variable cb : option (ProgressCallback T).

(** Case analysis on the outcome of every call [download] makes, in the
    order it makes them. *)
Ltac run_download :=
  unfold download, try_catch, bind, ret, spy, observe; cbn;
  repeat match goal with
         | |- context [match ?f ?w with _ => _ end] =>
             destruct (f w) as [[? | ?] ?] eqn:?; cbn
         | |- context [let (_, _) := ?f ?w in _] =>
             destruct (f w) as [[? | ?] ?] eqn:?; cbn
         | |- context [let (_, _) := ?a in _] =>
             is_var a; destruct a; cbn
         end.

(** What membership in a log that is written out says. *)
Ltac log_facts :=
  repeat match goal with
         | H : In _ _ |- _ => cbn in H; decompose sum H; clear H
         | H : _ \/ _ |- _ => destruct H
         | H : _ = _ :> Event _ |- _ =>
             first [discriminate H | injection H; clear H; intros; subst]
         | H : _ = _ :> Result _ _ |- _ =>
             first [discriminate H | injection H; clear H; intros; subst]
         | H : False |- _ => destruct H
         end.

Ltac fatal := unfold fatal_step; tauto.

(** Observing the calls changes neither the result nor the device. *)
Lemma spy_download (w : W) (log0 : list (Event (Err T))) :
  fst (download (spy i) track cb (w, log0)) = fst (download i track cb w) /\
  fst (snd (download (spy i) track cb (w, log0))) = snd (download i track cb w).
Proof. run_download; split; reflexivity. Qed.

(** C1, as the code has it: in a run of [download] in which [acquire]
    succeeds, [close] is called once as soon as the transfer has
    succeeded, and [release] once, right after [close], as soon as
    [close] has succeeded; so a run that returns has called each once,
    [close] first.  When the construction of the session, [init] or
    [downloadTrack] throws, neither [close] nor [release] is called; when
    [close] throws, [release] is not called.  In every case the error
    thrown to the caller is the one of the step that failed, the last
    call made. *)
Theorem download_teardown (w w' : W) r (log : list (Event (Err T))) :
  download (spy i) track cb (w, []) = (r, (w', log)) ->
  In (returned Cacquire) log ->
  download i track cb w = (r, w') /\
  (In (returned CdownloadTrack) log -> calls Cclose log = 1%nat) /\
  (In (returned Cclose) log ->
   calls Crelease log = 1%nat /\ called_next Cclose log = Some Crelease) /\
  (forall res, r = Ok res ->
     calls Cclose log = 1%nat /\ calls Crelease log = 1%nat /\
     called_next Cclose log = Some Crelease) /\
  (forall e,
     In (threw CnewEKBOpenSource e) log \/ In (threw CnewMDSession e) log \/
     In (threw Cinit e) log \/ In (threw CdownloadTrack e) log ->
     r = Throw e /\ calls Cclose log = 0%nat /\ calls Crelease log = 0%nat) /\
  (forall e, In (threw Cclose e) log ->
     r = Throw e /\ calls Cclose log = 1%nat /\ calls Crelease log = 0%nat) /\
  (forall e, In (threw Crelease e) log ->
     r = Throw e /\ calls Cclose log = 1%nat /\ calls Crelease log = 1%nat) /\
  (forall e, r = Throw e ->
     exists c, last log = Some (threw c e) /\ fatal_step c).
Proof.
  run_download.
  all: intros H; injection H as <- <- <-; intros Hacq.
  all: log_facts.
  all: repeat split; intros; log_facts; try reflexivity.
  all: eexists; split; [reflexivity | fatal].
Qed.

Ltac run_facts :=
  repeat match goal with
         | H : In _ _ |- _ => cbn in H; decompose sum H; clear H
         | H : _ \/ _ |- _ => destruct H
         | H : _ = ?x :> Event _ |- _ => is_var x; subst x
         | H : _ = _ :> Event _ |- _ =>
             first [discriminate H | injection H; clear H; intros; subst]
         | H : _ = _ :> Result _ _ |- _ =>
             first [discriminate H | injection H; clear H; intros; subst]
         | H : _ = _ :> (Call * Call) |- _ =>
             injection H; clear H; intros; subst
         | H : call _ = _ |- _ => cbn in H
         | H : ?a = ?b :> Call |- _ =>
             first [ discriminate H
                   | is_var a; subst a
                   | is_var b; subst b
                   | injection H; clear H; intros; subst
                   | clear H ]
         | H : ?a = ?b :> Z |- _ =>
             first [ discriminate H | is_var a; subst a | is_var b; subst b ]
         | H : False |- _ => destruct H
         end.

(** What follows a best-effort step that threw, and where a thrown result
    comes from. *)
Lemma download_best_effort_next (w w' : W) r (log : list (Event (Err T))) :
  download (spy i) track cb (w, []) = (r, (w', log)) ->
  download i track cb w = (r, w') /\
  (forall e, In (threw CsessionKeyForget e) log ->
     called_next CsessionKeyForget log = Some Cacquire) /\
  (forall e, In (threw CleaveSecureSession e) log ->
     called_next CleaveSecureSession log = Some Cacquire) /\
  (forall e v, In (threw (CdisableNewTrackProtection v) e) log ->
     called_next (CdisableNewTrackProtection v) log = Some CnewEKBOpenSource) /\
  calls Cacquire log = 1%nat /\
  (forall e, r = Throw e ->
     exists c, last log = Some (threw c e) /\
               fatal_step c /\ ~ best_effort_step c).
Proof.
  run_download.
  all: intros H; injection H as <- <- <-.
  all: repeat split; intros; log_facts; try reflexivity.
  all: eexists; split; [reflexivity | split; [fatal |]].
  all: intros [Hc | [Hc | [v Hc]]]; discriminate Hc.
Qed.

(** The calls of a run, step after step: each step that returns, and each
    best-effort step whether it returns or throws, is followed by the next
    step of the source, and the run ends only with [release] returning or
    with a fatal step throwing. *)
Lemma download_steps (w w' : W) r (log : list (Event (Err T))) :
  download (spy i) track cb (w, []) = (r, (w', log)) ->
  (In (returned CsessionKeyForget) log ->
   called_next CsessionKeyForget log = Some CleaveSecureSession) /\
  (forall ev, In ev log -> call ev = CleaveSecureSession ->
     called_next CleaveSecureSession log = Some Cacquire) /\
  (forall ev v, In ev log -> call ev = CdisableNewTrackProtection v ->
     v = 1 /\
     called_next (CdisableNewTrackProtection v) log = Some CnewEKBOpenSource) /\
  (forall c c', In (c, c') following_step -> In (returned c) log ->
     called_next c log = Some c') /\
  ((exists res, r = Ok res /\ last log = Some (returned Crelease)) \/
   (exists c e, r = Throw e /\ last log = Some (threw c e) /\ fatal_step c)).
Proof.
  run_download.
  all: intros H; injection H as <- <- <-.
  all: repeat split; intros; run_facts; try reflexivity.
  all: first [ left; eexists; split; reflexivity
             | right; eexists; eexists;
               split; [reflexivity | split; [reflexivity | fatal]] ].
Qed.

(** A throw of [sessionKeyForget] or of [leaveSecureSession] leaves
    [download] with what it does on a device without anything to clean
    up, from the state the throwing call left. *)
Lemma download_after_failed_cleanup (w : W) :
  (forall e w1, sessionKeyForget i w = (Throw e, w1) ->
     download i track cb w = download (without_cleanup i) track cb w1) /\
  (forall e w1 w2,
     sessionKeyForget i w = (Ok tt, w1) ->
     leaveSecureSession i w1 = (Throw e, w2) ->
     download i track cb w = download (without_cleanup i) track cb w2).
Proof.
  split.
  - intros e w1 H1.
    unfold download, try_catch, bind, ret. cbn. rewrite H1. reflexivity.
  - intros e w1 w2 H1 H2.
    unfold download, try_catch, bind, ret. cbn. rewrite H1, H2. reflexivity.
Qed.

(** Whether [disableNewTrackProtection] throws or returns makes no
    difference to [download]. *)
Lemma download_quiet_protection (w : W) :
  download i track cb w = download (with_quiet_protection i) track cb w.
Proof.
  unfold download, try_catch, bind, ret, quiet. cbn.
  destruct (sessionKeyForget i w) as [[[] | e1] w1]; cbn;
    [destruct (leaveSecureSession i w1) as [[[] | e2] w2]; cbn |].
  all: match goal with
       | |- context [acquire i ?w0] =>
           destruct (acquire i w0) as [[[] | e3] w3]; cbn; [| reflexivity]
       end.
  all: destruct (disableNewTrackProtection i 1 w3) as [[[] | e4] w4]; cbn;
    reflexivity.
Qed.

(** C2: a failure of [sessionKeyForget], of [leaveSecureSession] or of
    [disableNewTrackProtection] is swallowed, and the operation goes on
    through the steps that follow.  After a failed cleanup call the next
    call is [acquire], which every run makes once; after a failed
    [disableNewTrackProtection] the next call is the construction of the
    session; an error thrown to the caller is the one thrown by the last
    call made, which is none of these three.  From there on every step
    that returns, and each of the three whether it returns or throws, is
    followed by the next step of the source, up to [release]: the run
    ends only with [release] returning, and then [download] returns, or
    with a step other than these three throwing.  And the whole run is
    the one [download] makes when the failed cleanup call had nothing to
    do, or when [disableNewTrackProtection] does not throw: result and
    device state are the same. *)
Theorem download_swallows_best_effort (w w' : W) r (log : list (Event (Err T))) :
  download (spy i) track cb (w, []) = (r, (w', log)) ->
  download i track cb w = (r, w') /\
  (forall e, In (threw CsessionKeyForget e) log ->
     called_next CsessionKeyForget log = Some Cacquire) /\
  (forall e, In (threw CleaveSecureSession e) log ->
     called_next CleaveSecureSession log = Some Cacquire) /\
  (forall e v, In (threw (CdisableNewTrackProtection v) e) log ->
     called_next (CdisableNewTrackProtection v) log = Some CnewEKBOpenSource) /\
  calls Cacquire log = 1%nat /\
  (forall e, r = Throw e ->
     exists c, last log = Some (threw c e) /\
               fatal_step c /\ ~ best_effort_step c) /\
  (In (returned CsessionKeyForget) log ->
   called_next CsessionKeyForget log = Some CleaveSecureSession) /\
  (forall ev, In ev log -> call ev = CleaveSecureSession ->
     called_next CleaveSecureSession log = Some Cacquire) /\
  (forall ev v, In ev log -> call ev = CdisableNewTrackProtection v ->
     v = 1 /\
     called_next (CdisableNewTrackProtection v) log = Some CnewEKBOpenSource) /\
  (forall c c', In (c, c') following_step -> In (returned c) log ->
     called_next c log = Some c') /\
  ((exists res, r = Ok res /\ last log = Some (returned Crelease)) \/
   (exists c e, r = Throw e /\ last log = Some (threw c e) /\ fatal_step c)) /\
  (forall e w1, sessionKeyForget i w = (Throw e, w1) ->
     download i track cb w = download (without_cleanup i) track cb w1) /\
  (forall e w1 w2,
     sessionKeyForget i w = (Ok tt, w1) ->
     leaveSecureSession i w1 = (Throw e, w2) ->
     download i track cb w = download (without_cleanup i) track cb w2) /\
  download i track cb w = download (with_quiet_protection i) track cb w.
Proof.
  intros Hrun.
  destruct (download_best_effort_next w w' r log Hrun)
    as (N0 & N1 & N2 & N3 & N4 & N5).
  destruct (download_steps w w' r log Hrun) as (S1 & S2 & S3 & S4 & S5).
  destruct (download_after_failed_cleanup w) as [F1 F2].
  repeat (split; [assumption |]).
  apply download_quiet_protection.
Qed.

(** C3: when [acquire] throws, that error is thrown to the caller, and
    [acquire] is the last call made: no session is constructed or
    initialized, nothing is transferred, and [close] and [release] are
    not called. *)
Theorem download_acquire_failure (w w' : W) r (log : list (Event (Err T))) e :
  download (spy i) track cb (w, []) = (r, (w', log)) ->
  In (threw Cacquire e) log ->
  download i track cb w = (Throw e, w') /\
  r = Throw e /\
  last log = Some (threw Cacquire e) /\
  (forall v, calls (CdisableNewTrackProtection v) log = 0%nat) /\
  calls CnewEKBOpenSource log = 0%nat /\
  calls CnewMDSession log = 0%nat /\
  calls Cinit log = 0%nat /\
  calls CdownloadTrack log = 0%nat /\
  calls Cclose log = 0%nat /\
  calls Crelease log = 0%nat.
Proof.
  run_download.
  all: intros H; injection H as <- <- <-; intros Hin.
  all: log_facts.
  all: repeat split; reflexivity.
Qed.

(** C10: the two cleanup calls share one [try]: when [sessionKeyForget]
    throws, [leaveSecureSession] is not called. *)
Theorem download_forget_failure_skips_leave (w w' : W) r
    (log : list (Event (Err T))) e :
  download (spy i) track cb (w, []) = (r, (w', log)) ->
  In (threw CsessionKeyForget e) log ->
  calls CleaveSecureSession log = 0%nat.
Proof.
  run_download.
  all: intros H; injection H as <- <- <-; intros Hin.
  all: log_facts.
  all: reflexivity.
Qed.

End DownloadRuns.

(** ** Runs on scripted devices *)

Ltac logged := vm_compute; repeat (first [left; reflexivity | right]).

Lemma download_teardown_witness :
  calls Cclose (download_log (scripted two_groups) tt None tt) = 1%nat /\
  calls Crelease (download_log (scripted two_groups) tt None tt) = 1%nat /\
  called_next Cclose (download_log (scripted two_groups) tt None tt) = Some Crelease.
Proof.
  destruct (download_teardown (scripted two_groups) tt None tt tt
              (Ok (3, "uuid"%string, "ccid"%string))
              (download_log (scripted two_groups) tt None tt))
    as (_ & _ & _ & Hret & _).
  - vm_compute. reflexivity.
  - logged.
  - exact (Hret _ eq_refl).
Defined.

(** C1, as the claim states it, fails: on a device whose [init] throws,
    [acquire] succeeds, the error of [init] is thrown to the caller, and
    the run ends with neither [close] nor [release] called. *)
Lemma download_init_failure_no_teardown :
  exists log,
    download (spy (scripted init_fails)) tt None (tt, [])
      = (Throw "handshake failed"%string, (tt, log)) /\
    In (returned Cacquire) log /\
    last log = Some (threw Cinit "handshake failed"%string) /\
    calls Cclose log = 0%nat /\
    calls Crelease log = 0%nat /\
    ~ (calls Cclose log = 1%nat /\ calls Crelease log = 1%nat).
Proof.
  eexists. split; [vm_compute; reflexivity |].
  split; [logged |].
  repeat (split; [reflexivity |]).
  vm_compute. intros [H _]. discriminate H.
Qed.

Lemma download_swallows_best_effort_witness :
  called_next (CdisableNewTrackProtection 1)
    (download_log (scripted protection_unsupported) tt None tt)
    = Some CnewEKBOpenSource /\
  fst (download (scripted protection_unsupported) tt None tt)
    = Ok (3, "uuid"%string, "ccid"%string) /\
  called_next Cinit (download_log (scripted protection_unsupported) tt None tt)
    = Some CdownloadTrack /\
  download (scripted protection_unsupported) tt None tt
    = download (with_quiet_protection (scripted protection_unsupported)) tt None tt.
Proof.
  destruct (download_swallows_best_effort (scripted protection_unsupported)
              tt None tt tt
              (Ok (3, "uuid"%string, "ccid"%string))
              (download_log (scripted protection_unsupported) tt None tt))
    as (_ & _ & _ & Hnext & _ & _ & _ & _ & _ & Hstep & _ & _ & _ & Hquiet).
  - vm_compute. reflexivity.
  - split; [apply (Hnext "not supported"%string 1); logged |].
    split; [reflexivity |].
    split; [| exact Hquiet].
    apply (Hstep Cinit CdownloadTrack).
    + vm_compute. tauto.
    + logged.
Defined.

Lemma download_acquire_failure_witness :
  fst (download (scripted acquire_fails) tt None tt) = Throw "device busy"%string /\
  calls Cinit (download_log (scripted acquire_fails) tt None tt) = 0%nat /\
  calls Crelease (download_log (scripted acquire_fails) tt None tt) = 0%nat.
Proof.
  destruct (download_acquire_failure (scripted acquire_fails) tt None tt tt
              (fst (download (scripted acquire_fails) tt None tt))
              (download_log (scripted acquire_fails) tt None tt)
              "device busy"%string)
    as (_ & Hr & _ & _ & _ & _ & Hinit & _ & _ & Hrel).
  - vm_compute. reflexivity.
  - logged.
  - repeat split; assumption.
Defined.

Lemma download_forget_failure_skips_leave_witness :
  calls CleaveSecureSession (download_log (scripted forget_fails) tt None tt) = 0%nat /\
  calls Cacquire (download_log (scripted forget_fails) tt None tt) = 1%nat.
Proof.
  split; [| reflexivity].
  apply (download_forget_failure_skips_leave (scripted forget_fails) tt None tt tt
           (fst (download (scripted forget_fails) tt None tt))
           (download_log (scripted forget_fails) tt None tt)
           "no session key"%string).
  - vm_compute. reflexivity.
  - logged.
Defined.

(** * Further properties of the commands *)

(** ** Status decoder *)

Lemma lookupState_playing_iff (v : Z) : lookupState v = playing <-> v = 50037.
Proof.
  rewrite lookupState_cases.
  repeat match goal with
         | |- context [v =? ?c] => destruct (Z.eqb_spec v c)
         end; split; intros H; first [discriminate H | lia | reflexivity].
Qed.

(** X1: playing is reported exactly for the code 50037 with a disc present. *)
Theorem decodeStatus_playing_iff (status pb : list Byte.byte)
    (pos : option (list Z)) :
  state (decodeStatus status pb pos) = playing <->
  operatingStatusOf pb = 50037 /\ status !! 4%nat = Some Byte.x40.
Proof.
  rewrite <- (discPresent_decodeStatus status pb pos), state_decodeStatus.
  rewrite <- lookupState_playing_iff.
  destruct (discPresent (decodeStatus status pb pos)); cbn [negb].
  - rewrite andb_false_r. split; [intros H; split; [exact H | reflexivity] | tauto].
  - rewrite andb_true_r. case_bool_decide as Hp.
    + split; [discriminate | intros [_ H]; discriminate H].
    + split; [contradiction | intros [_ H]; discriminate H].
Qed.

Lemma byte_or_0_short (buf : list Byte.byte) (n : nat) :
  (length buf <= n)%nat -> byte_or_0 buf n = 0.
Proof.
  intros H. unfold byte_or_0. rewrite lookup_ge_None_2 by exact H. reflexivity.
Qed.

(** X2: a playback-status buffer of fewer than six bytes decodes to unknown,
    and a status buffer of fewer than five bytes to no disc: a missing byte
    is no error. *)
Theorem decodeStatus_short_buffers (status pb : list Byte.byte)
    (pos : option (list Z)) :
  ((length pb < 6)%nat -> state (decodeStatus status pb pos) = unknown) /\
  ((length status < 5)%nat -> discPresent (decodeStatus status pb pos) = false).
Proof.
  split.
  - intros Hlen.
    rewrite state_decodeStatus, lookupState_cases, operatingStatusOf_big_endian.
    rewrite (byte_or_0_short pb 5) by lia.
    pose proof (byte_or_0_range pb 4) as H4.
    repeat match goal with
           | |- context [?v =? ?c] => destruct (Z.eqb_spec v c); [lia |]
           end.
    reflexivity.
  - intros Hlen. cbn. unfold Js.at_byte.
    rewrite lookup_ge_None_2 by lia. reflexivity.
Qed.

Lemma decodeStatus_short_buffers_witness :
  state (decodeStatus [] [Byte.xc5; Byte.xff] None) = unknown /\
  discPresent (decodeStatus [] [Byte.xc5; Byte.xff] None) = false.
Proof.
  split.
  - apply (proj1 (decodeStatus_short_buffers [] [Byte.xc5; Byte.xff] None)).
    cbn. lia.
  - apply (proj2 (decodeStatus_short_buffers [] [Byte.xc5; Byte.xff] None)).
    cbn. lia.
Defined.

(** X3: the status word gives back the two bytes it was composed from: the
    high byte is its quotient by 256 and the low byte its remainder. *)
Theorem operatingStatusOf_bytes (pb : list Byte.byte) :
  byte_or_0 pb 4 = operatingStatusOf pb / 256 /\
  byte_or_0 pb 5 = operatingStatusOf pb mod 256.
Proof.
  rewrite operatingStatusOf_big_endian.
  pose proof (byte_or_0_range pb 4) as H4.
  pose proof (byte_or_0_range pb 5) as H5.
  split.
  - apply Z.div_unique with (r := byte_or_0 pb 5); lia.
  - apply Z.mod_unique with (q := byte_or_0 pb 4); lia.
Qed.

(** X4: the decoded status depends on the buffers only through byte 4 of the
    status and bytes 4 and 5 of the playback status. *)
Theorem decodeStatus_reads_three_bytes (status status' pb pb' : list Byte.byte)
    (pos : option (list Z)) :
  status !! 4%nat = status' !! 4%nat ->
  pb !! 4%nat = pb' !! 4%nat ->
  pb !! 5%nat = pb' !! 5%nat ->
  decodeStatus status pb pos = decodeStatus status' pb' pos.
Proof.
  intros Hs H4 H5.
  unfold decodeStatus, operatingStatusOf, Js.at_byte.
  rewrite Hs, H4, H5. reflexivity.
Qed.

Lemma decodeStatus_reads_three_bytes_witness :
  decodeStatus status_no_disc playback_playing None
  = decodeStatus [Byte.xff; Byte.xff; Byte.xff; Byte.xff; Byte.x00; Byte.xff]
                 [Byte.x01; Byte.x02; Byte.x03; Byte.x04; Byte.xc3; Byte.x75;
                  Byte.x09]
                 None.
Proof.
  apply decodeStatus_reads_three_bytes; reflexivity.
Defined.

(** X5: [track] and [time] are null exactly when the position is, and are read
    from the elements 0 and 2, 3, 4 of the position otherwise, whatever
    the length of the position: an element the position has is taken as
    it is, and an element the position lacks is undefined, not an
    error. *)
Theorem decodeStatus_position (status pb : list Byte.byte)
    (pos : option (list Z)) :
  let ds := decodeStatus status pb pos in
  let element (p : list Z) (k : nat) :=
    match p !! k with
    | Some z => Js.num z
    | None => Js.undefined
    end in
  (track ds = None <-> pos = None) /\
  (time ds = None <-> pos = None) /\
  (forall t x m s f rest, pos = Some (t :: x :: m :: s :: f :: rest) ->
     track ds = Some (Js.num t) /\
     time ds = Some {| pt_minute := Js.num m;
                       pt_second := Js.num s;
                       pt_frame := Js.num f |}) /\
  (pos = Some [] ->
     track ds = Some Js.undefined /\
     time ds = Some {| pt_minute := Js.undefined;
                       pt_second := Js.undefined;
                       pt_frame := Js.undefined |}) /\
  (forall p, pos = Some p ->
     track ds = Some (element p 0%nat) /\
     time ds = Some {| pt_minute := element p 2%nat;
                       pt_second := element p 3%nat;
                       pt_frame := element p 4%nat |}) /\
  (forall p tm, pos = Some p -> time ds = Some tm ->
     ((length p <= 0)%nat -> track ds = Some Js.undefined) /\
     ((length p <= 2)%nat -> pt_minute tm = Js.undefined) /\
     ((length p <= 3)%nat -> pt_second tm = Js.undefined) /\
     ((length p <= 4)%nat -> pt_frame tm = Js.undefined)) /\
  (forall p tm z, pos = Some p -> time ds = Some tm ->
     (p !! 0%nat = Some z -> track ds = Some (Js.num z)) /\
     (p !! 2%nat = Some z -> pt_minute tm = Js.num z) /\
     (p !! 3%nat = Some z -> pt_second tm = Js.num z) /\
     (p !! 4%nat = Some z -> pt_frame tm = Js.num z)).
Proof.
  cbn zeta.
  split; [| split; [| split; [| split; [| split; [| split]]]]].
  - cbn. destruct pos; split; congruence.
  - cbn. destruct pos; split; congruence.
  - intros t x m s f rest ->. split; reflexivity.
  - intros ->. split; reflexivity.
  - intros p ->. split; reflexivity.
  - intros p tm -> Htm. cbn in Htm. injection Htm as <-. cbn.
    unfold Js.at_num.
    repeat split; intros Hlen; rewrite lookup_ge_None_2 by lia; reflexivity.
  - intros p tm z -> Htm. cbn in Htm. injection Htm as <-. cbn.
    unfold Js.at_num.
    repeat split; intros ->; reflexivity.
Qed.

Lemma decodeStatus_position_witness :
  track (decodeStatus status_no_disc playback_playing (Some [7; 0; 1]))
  = Some (Js.num 7) /\
  time (decodeStatus status_no_disc playback_playing (Some [7; 0; 1]))
  = Some {| pt_minute := Js.num 1;
            pt_second := Js.undefined;
            pt_frame := Js.undefined |}.
Proof.
  destruct (decodeStatus_position status_no_disc playback_playing
              (Some [7; 0; 1]))
    as (_ & _ & _ & _ & Hall & Hlack & Hhas).
  destruct (Hall [7; 0; 1] eq_refl) as [Htrack Htime].
  split; [exact Htrack |].
  destruct (Hlack [7; 0; 1] _ eq_refl Htime) as (_ & _ & Hsec & Hfr).
  destruct (Hhas [7; 0; 1] _ 1 eq_refl Htime) as (_ & Hmin & _ & _).
  rewrite Htime. f_equal.
Defined.

(** ** Counting and flattening tracks *)

(** X7: a track is in the flattened list exactly when some group holds it. *)
Theorem getTracks_In (d : Disc) (t : Track.t) :
  In t (getTracks d) <->
  exists g, In g (Disc.groups d) /\ In t (Group.tracks g).
Proof.
  rewrite getTracks_concat, in_concat. split.
  - intros (ts & Hts & Ht). apply in_map_iff in Hts as (g & <- & Hg).
    exists g. split; assumption.
  - intros (g & Hg & Ht). exists (Group.tracks g).
    split; [apply in_map; exact Hg | exact Ht].
Qed.

(** X8: flattening and counting go through the groups from left to right:
    over the groups [gs1 ++ gs2] the tracks are those of [gs1] followed by
    those of [gs2], and the count is the sum of the two counts. *)
Theorem getTracks_app (d : Disc) (gs1 gs2 : list Group.t) :
  getTracks (with_groups d (gs1 ++ gs2))
  = getTracks (with_groups d gs1) ++ getTracks (with_groups d gs2) /\
  countTracksInDisc (with_groups d (gs1 ++ gs2))
  = countTracksInDisc (with_groups d gs1) + countTracksInDisc (with_groups d gs2).
Proof.
  split.
  - rewrite !getTracks_concat. cbn. rewrite map_app, concat_app. reflexivity.
  - unfold countTracksInDisc. cbn.
    rewrite !count_from, map_app, concat_app, length_app. lia.
Qed.

(** ** Observed runs, compositionally *)

Lemma observe_run {W E A} (c : Call) (m : M W E A) (w : W) (l : list (Event E)) :
  observe c m (w, l) = (fst (m w), (snd (m w), l ++ [outcome c (fst (m w))])).
Proof. unfold observe. cbn. destruct (m w) as [r w1]. reflexivity. Qed.

Lemma observes_observe {W E A} (c : Call) (m : M W E A) :
  observes m (observe c m).
Proof. intros w l. eexists. apply observe_run. Qed.

Lemma observes_ret {W E A} (a : A) :
  observes (@ret W E A a) (ret a).
Proof. intros w l. exists []. rewrite app_nil_r. reflexivity. Qed.

Lemma observes_bind {W E A B} (m : M W E A) m' (k : A -> M W E B) k' :
  observes m m' ->
  (forall a, observes (k a) (k' a)) ->
  observes (bind m k) (bind m' k').
Proof.
  intros Hm Hk w l. rewrite !bind_run.
  destruct (Hm w l) as [l1 ->].
  destruct (m w) as [[a | e] w1]; cbn.
  - destruct (Hk a w1 (l ++ l1)) as [l2 ->].
    exists (l1 ++ l2). rewrite app_assoc. reflexivity.
  - exists l1. reflexivity.
Qed.

Lemma observes_for_of {W E A X} (body : A -> X -> M W E A) body' (xs : list X) :
  (forall acc x, observes (body acc x) (body' acc x)) ->
  forall acc, observes (for_of body xs acc) (for_of body' xs acc).
Proof.
  intros Hb. induction xs as [| x xs IH]; intros acc; cbn.
  - apply observes_ret.
  - apply observes_bind; [apply Hb | exact IH].
Qed.

Lemma all_returned_snoc {E} (l : list (Event E)) (c : Call) :
  all_returned l -> all_returned (l ++ [returned c]).
Proof.
  intros H. apply Forall_app. split; [exact H |].
  constructor; [reflexivity | constructor].
Qed.

Lemma fail_fast_observe {W E A} (c : Call) (m : M W E A) :
  fail_fast (observe c m).
Proof.
  intros w l Hl. rewrite observe_run. cbn.
  destruct (m w) as [[a | e] w1]; cbn.
  - apply all_returned_snoc, Hl.
  - exists l, c. split; [reflexivity | exact Hl].
Qed.

Lemma fail_fast_ret {W E A} (a : A) :
  fail_fast (@ret (W * list (Event E)) E A a).
Proof. intros w l Hl. exact Hl. Qed.

Lemma fail_fast_bind {W E A B} (m : M (W * list (Event E)) E A)
    (k : A -> M (W * list (Event E)) E B) :
  fail_fast m -> (forall a, fail_fast (k a)) -> fail_fast (bind m k).
Proof.
  intros Hm Hk w l Hl. specialize (Hm w l Hl). rewrite bind_run.
  destruct (m (w, l)) as [[a | e] [w1 l1]]; cbn in Hm |- *.
  - apply Hk, Hm.
  - exact Hm.
Qed.

Lemma fail_fast_for_of {W E A X} (body : A -> X -> M (W * list (Event E)) E A)
    (xs : list X) :
  (forall acc x, fail_fast (body acc x)) ->
  forall acc, fail_fast (for_of body xs acc).
Proof.
  intros Hb. induction xs as [| x xs IH]; intros acc; cbn.
  - apply fail_fast_ret.
  - apply fail_fast_bind; [apply Hb | exact IH].
Qed.

Section ObservedReads.
Context {T : Types} {W : Type}.
Variable i : NetMDInterface T W.

Lemma observes_readTrack (track : Z) :
  observes (readTrack i track) (readTrack (spy i) track).
Proof.
  unfold readTrack.
  apply observes_bind; [apply observes_observe | intros title].
  apply observes_bind; [apply observes_observe | intros [codec channel]].
  apply observes_bind; [apply observes_observe | intros len].
  apply observes_bind; [apply observes_observe | intros flags].
  apply observes_ret.
Qed.

Lemma observes_readGroup acc entry :
  observes (readGroup i acc entry) (readGroup (spy i) acc entry).
Proof.
  destruct acc as [disc store], entry as [groupIndex [groupName trackLists]].
  unfold readGroup.
  apply observes_bind.
  - apply observes_for_of. intros tracks [trackIndex track].
    apply observes_bind; [apply observes_readTrack | intros t].
    apply observes_ret.
  - intros tracks. apply observes_ret.
Qed.

Lemma observes_listContent :
  observes (listContent i) (listContent (spy i)).
Proof.
  unfold listContent.
  apply observes_bind; [apply observes_observe | intros flags].
  apply observes_bind; [apply observes_observe | intros title].
  apply observes_bind; [apply observes_observe | intros [[used total] left]].
  apply observes_bind; [apply observes_observe | intros n].
  apply observes_bind; [apply observes_observe | intros tgl].
  apply observes_bind.
  - apply observes_for_of. exact observes_readGroup.
  - intros [disc store]. apply observes_ret.
Qed.

Lemma fail_fast_readTrack (track : Z) : fail_fast (readTrack (spy i) track).
Proof.
  unfold readTrack.
  apply fail_fast_bind; [apply fail_fast_observe | intros title].
  apply fail_fast_bind; [apply fail_fast_observe | intros [codec channel]].
  apply fail_fast_bind; [apply fail_fast_observe | intros len].
  apply fail_fast_bind; [apply fail_fast_observe | intros flags].
  apply fail_fast_ret.
Qed.

Lemma fail_fast_readGroup acc entry : fail_fast (readGroup (spy i) acc entry).
Proof.
  destruct acc as [disc store], entry as [groupIndex [groupName trackLists]].
  unfold readGroup.
  apply fail_fast_bind.
  - apply fail_fast_for_of. intros tracks [trackIndex track].
    apply fail_fast_bind; [apply fail_fast_readTrack | intros t].
    apply fail_fast_ret.
  - intros tracks. apply fail_fast_ret.
Qed.

Lemma fail_fast_listContent : fail_fast (listContent (spy i)).
Proof.
  unfold listContent.
  apply fail_fast_bind; [apply fail_fast_observe | intros flags].
  apply fail_fast_bind; [apply fail_fast_observe | intros title].
  apply fail_fast_bind; [apply fail_fast_observe | intros [[used total] left]].
  apply fail_fast_bind; [apply fail_fast_observe | intros n].
  apply fail_fast_bind; [apply fail_fast_observe | intros tgl].
  apply fail_fast_bind.
  - apply fail_fast_for_of. exact fail_fast_readGroup.
  - intros [disc store]. apply fail_fast_ret.
Qed.

End ObservedReads.

(** ** [listContent]: failures, reads and groups *)

Lemma observe_Ok_inv {W E A} (c : Call) (m : M W E A) w l a s :
  observe c m (w, l) = (Ok a, s) ->
  exists w', m w = (Ok a, w') /\ s = (w', l ++ [returned c]).
Proof.
  rewrite observe_run. destruct (m w) as [[a0 | e] w1]; cbn; intros H;
    [| discriminate H].
  injection H as -> <-. exists w1. split; reflexivity.
Qed.

Lemma threw_not_returned {E} (l : list (Event E)) (c : Call) (e : E) :
  all_returned l -> ~ In (threw c e) l.
Proof.
  intros Hl Hin. unfold all_returned in Hl.
  rewrite List.Forall_forall in Hl. specialize (Hl _ Hin). discriminate Hl.
Qed.

Section ContentReads.
Context {T : Types} {W : Type}.
Variable i : NetMDInterface T W.

Lemma listContent_observed (w : W) :
  listContent (spy i) (w, [])
  = (fst (listContent i w), (snd (listContent i w), listContent_log i w)).
Proof.
  unfold listContent_log.
  destruct (observes_listContent i w []) as [l' ->]. reflexivity.
Qed.

(** X9: [listContent] stops at the first read that throws and gives no partial
    disc: when it returns a disc no read has thrown; when it throws, the
    error is the one of the last read made and no earlier read threw; and
    an error thrown by any read is the error [listContent] throws. *)
Theorem listContent_stops_at_first_failure (w : W) :
  (forall d w', listContent i w = (Ok d, w') ->
     all_returned (listContent_log i w)) /\
  (forall e w', listContent i w = (Throw e, w') ->
     exists pre c,
       listContent_log i w = pre ++ [threw c e] /\ all_returned pre) /\
  (forall c e, In (threw c e) (listContent_log i w) ->
     fst (listContent i w) = Throw e).
Proof.
  pose proof (fail_fast_listContent i w [] (List.Forall_nil _)) as H.
  rewrite listContent_observed in H. cbn in H.
  split; [| split].
  - intros d w' Hrun. rewrite Hrun in H. exact H.
  - intros e w' Hrun. rewrite Hrun in H. exact H.
  - intros c e Hin.
    destruct (fst (listContent i w)) as [d | e'].
    + exfalso. exact (threw_not_returned _ c e H Hin).
    + destruct H as (pre & c' & Hlog & Hpre).
      rewrite Hlog in Hin. apply in_app_or in Hin as [Hin | [Heq | []]].
      * exfalso. exact (threw_not_returned _ c e Hpre Hin).
      * injection Heq as _ ->. reflexivity.
Qed.

Lemma readTrack_spy_calls (track : Z) w l tr s :
  readTrack (spy i) track (w, l) = (Ok tr, s) ->
  exists w', s = (w', l ++ map returned (track_calls track)).
Proof.
  unfold readTrack. intros H.
  apply bind_Ok_inv in H as (title & s1 & H1 & H).
  apply observe_Ok_inv in H1 as (w1 & _ & ->).
  apply bind_Ok_inv in H as ([codec channel] & s2 & H2 & H).
  apply observe_Ok_inv in H2 as (w2 & _ & ->).
  apply bind_Ok_inv in H as (len & s3 & H3 & H).
  apply observe_Ok_inv in H3 as (w3 & _ & ->).
  apply bind_Ok_inv in H as (flags & s4 & H4 & H).
  apply observe_Ok_inv in H4 as (w4 & _ & ->).
  apply ret_Ok_inv in H as [_ <-].
  exists w4. rewrite <- !app_assoc. reflexivity.
Qed.

Lemma readTracks_spy_calls (ts : list Z) w l xs s :
  readTracks (spy i) ts (w, l) = (Ok xs, s) ->
  exists w', s = (w', l ++ map returned (flat_map track_calls ts)).
Proof.
  revert w l xs s. induction ts as [| t ts IH]; intros w l xs s H; cbn in H.
  - apply ret_Ok_inv in H as [_ <-]. exists w. cbn. rewrite app_nil_r. reflexivity.
  - apply bind_Ok_inv in H as (x & s1 & Hx & H).
    apply readTrack_spy_calls in Hx as (w1 & ->).
    apply bind_Ok_inv in H as (xs' & s2 & Hxs & H).
    apply IH in Hxs as (w2 & ->).
    apply ret_Ok_inv in H as [_ <-].
    exists w2. cbn [flat_map]. rewrite map_app, <- !app_assoc. reflexivity.
Qed.

Lemma readGroups_spy_calls (tgl : list (option string * list Z)) k w l gs s :
  readGroups (spy i) k tgl (w, l) = (Ok gs, s) ->
  exists w',
    s = (w', l ++ map returned (flat_map track_calls (concat (map snd tgl)))).
Proof.
  revert k w l gs s.
  induction tgl as [| [name ts] tgl IH]; intros k w l gs s H; cbn in H.
  - apply ret_Ok_inv in H as [_ <-]. exists w. cbn. rewrite app_nil_r. reflexivity.
  - apply bind_Ok_inv in H as (xs & s1 & Hxs & H).
    apply readTracks_spy_calls in Hxs as (w1 & ->).
    apply bind_Ok_inv in H as (gs' & s2 & Hgs & H).
    apply IH in Hgs as (w2 & ->).
    apply ret_Ok_inv in H as [_ <-].
    exists w2. cbn [map concat snd].
    rewrite flat_map_app, map_app, <- !app_assoc. reflexivity.
Qed.

(** X10: a run of [listContent] that returns a disc has made, in this order,
    the five reads of the disc and then, for every track of the disc as
    [getTracks] lists them, the reads of its title, encoding, length and
    flags: five reads and four for each track, none repeated. *)
Theorem listContent_reads (w w' : W) (d : Disc) :
  listContent i w = (Ok d, w') ->
  listContent_log i w
  = map returned
      (header_calls ++ flat_map track_calls (map Track.index (getTracks d))) /\
  Z.of_nat (length (listContent_log i w)) = 5 + 4 * countTracksInDisc d.
Proof.
  intros Hrun.
  pose proof (listContent_observed w) as Hobs. rewrite Hrun in Hobs. cbn in Hobs.
  assert (Hlog : listContent_log i w
                 = map returned
                     (header_calls ++
                      flat_map track_calls (map Track.index (getTracks d)))).
  { pose proof Hobs as H.
    apply listContent_Ok in H
      as (flags & title & used & total & left & n & tgl & s1 & s2 & s3 & s4 & s5 &
          H1 & H2 & H3 & H4 & H5 & gs & Hgs & _ & _ & _ & _ & _ & Hg).
    cbn in H1, H2, H3, H4, H5.
    apply observe_Ok_inv in H1 as (w1 & _ & ->).
    apply observe_Ok_inv in H2 as (w2 & _ & ->).
    apply observe_Ok_inv in H3 as (w3 & _ & ->).
    apply observe_Ok_inv in H4 as (w4 & _ & ->).
    apply observe_Ok_inv in H5 as (w5 & _ & ->).
    pose proof Hgs as Hcalls.
    apply readGroups_spy_calls in Hcalls as (w6 & Heq).
    injection Heq as _ ->.
    apply readGroups_Ok in Hgs as (_ & Hs & _ & _).
    rewrite getTracks_concat, Hg, concat_map_map, Hs.
    rewrite map_app. reflexivity. }
  split; [exact Hlog |].
  rewrite Hlog, length_map, length_app.
  unfold countTracksInDisc. rewrite count_from, <- getTracks_concat.
  rewrite <- (length_map Track.index (getTracks d)).
  assert (Hfour : forall ts : list Z,
             length (flat_map track_calls ts) = (4 * length ts)%nat).
  { induction ts as [| t ts IH]; [reflexivity |].
    cbn [flat_map]. rewrite length_app, IH. cbn. lia. }
  rewrite Hfour. cbn [header_calls length]. lia.
Qed.

End ContentReads.

Section ContentShape.
Context {T : Types} {W : Type}.
Variable i : NetMDInterface T W.

Lemma readTrack_track_read (track : Z) (w w' : W) (tr : Track.t) :
  readTrack i track w = (Ok tr, w') -> track_read i tr.
Proof.
  unfold readTrack. intros H.
  apply bind_Ok_inv in H as (title & w1 & Ht & H).
  apply bind_Ok_inv in H as ([codec channel] & w2 & He & H).
  apply bind_Ok_inv in H as (len & w3 & Hl & H).
  apply bind_Ok_inv in H as (flags & w4 & Hf & H).
  apply ret_Ok_inv in H as [<- _].
  exists w, w1, w2, w3, w4, len. cbn. repeat split; assumption.
Qed.

Lemma readTracks_track_read (ts : list Z) (w w' : W) (xs : list Track.t) :
  readTracks i ts w = (Ok xs, w') -> Forall (track_read i) xs.
Proof.
  revert w w' xs. induction ts as [| t ts IH]; intros w w' xs H; cbn in H.
  - apply ret_Ok_inv in H as [<- _]. constructor.
  - apply bind_Ok_inv in H as (x & w1 & Hx & H).
    apply bind_Ok_inv in H as (xs' & w2 & Hxs & H).
    apply ret_Ok_inv in H as [<- _].
    constructor; [eapply readTrack_track_read, Hx | eapply IH, Hxs].
Qed.

Lemma readGroups_mirror (tgl : list (option string * list Z)) (k : Z)
    (w w' : W) (gs : list Group.t) :
  readGroups i k tgl w = (Ok gs, w') ->
  map (fun g => (Group.title g, map Track.index (Group.tracks g))) gs = tgl /\
  Forall (track_read i) (concat (map Group.tracks gs)).
Proof.
  revert k w w' gs.
  induction tgl as [| [name ts] tgl IH]; intros k w w' gs H; cbn in H.
  - apply ret_Ok_inv in H as [<- _]. split; [reflexivity | constructor].
  - apply bind_Ok_inv in H as (xs & w1 & Hxs & H).
    apply bind_Ok_inv in H as (gs' & w2 & Hgs & H).
    apply ret_Ok_inv in H as [<- _].
    pose proof (readTracks_track_read _ _ _ _ Hxs) as Hread.
    apply readTracks_Ok in Hxs as [Hm _].
    apply IH in Hgs as [Hmirror Hreads].
    cbn. split; [rewrite Hm, Hmirror; reflexivity |].
    apply Forall_app. split; assumption.
Qed.

(** X11: the groups of a disc built by [listContent] mirror the track-group
    list the device gave, entry by entry: as many groups, each with the
    name of its entry as title (null for null) and, in order, tracks of
    exactly the entry's indices; an entry without indices gives a group
    without tracks. *)
Theorem listContent_groups_mirror_list (w w' : W) (d : Disc) :
  listContent i w = (Ok d, w') ->
  exists tgl wa wb,
    getTrackGroupList i wa = (Ok tgl, wb) /\
    map (fun g => (Group.title g, map Track.index (Group.tracks g)))
        (Disc.groups d) = tgl /\
    length (Disc.groups d) = length tgl /\
    (forall (p : nat) g name,
       Disc.groups d !! p = Some g -> tgl !! p = Some (name, []) ->
       Group.title g = name /\ Group.tracks g = []).
Proof.
  intros H.
  apply listContent_Ok in H
    as (flags & title & used & total & left & n & tgl & w1 & w2 & w3 & w4 & w5 &
        _ & _ & _ & _ & Htgl & gs & Hgs & _ & _ & _ & _ & _ & Hg).
  apply readGroups_mirror in Hgs as [Hmirror _].
  exists tgl, w4, w5. rewrite Hg.
  split; [exact Htgl |]. split; [exact Hmirror |].
  split; [rewrite <- Hmirror, length_map; reflexivity |].
  intros p g name Hp Hq. rewrite <- Hmirror, list_lookup_fmap, Hp in Hq.
  cbn in Hq. injection Hq as Ht Hn.
  split; [exact Ht |].
  destruct (Group.tracks g); [reflexivity | discriminate Hn].
Qed.

(** X12: every track of a disc built by [listContent] carries the answers of
    four reads the device gave for the track's own index, one after the
    other: the title, the encoding and the channel (first and second of
    the pair read), the length converted to frames, and the flags. *)
Theorem listContent_tracks_read (w w' : W) (d : Disc) :
  listContent i w = (Ok d, w') ->
  forall tr, In tr (getTracks d) -> track_read i tr.
Proof.
  intros H.
  apply listContent_Ok in H
    as (flags & title & used & total & left & n & tgl & w1 & w2 & w3 & w4 & w5 &
        _ & _ & _ & _ & _ & gs & Hgs & _ & _ & _ & _ & _ & Hg).
  apply readGroups_mirror in Hgs as [_ Hreads].
  intros tr Hin. rewrite getTracks_concat, Hg in Hin.
  rewrite List.Forall_forall in Hreads. exact (Hreads tr Hin).
Qed.

End ContentShape.

Lemma listContent_stops_at_first_failure_witness :
  fst (listContent (scripted length_read_fails) tt) = Throw "read failed"%string /\
  last (listContent_log (scripted length_read_fails) tt)
  = Some (threw (CgetTrackLength 1) "read failed"%string).
Proof.
  split; [| reflexivity].
  apply (proj2 (proj2 (listContent_stops_at_first_failure
                         (scripted length_read_fails) tt))
           (CgetTrackLength 1)).
  vm_compute. repeat (first [left; reflexivity | right]).
Defined.

Lemma listContent_reads_witness :
  exists d,
    listContent (scripted two_groups) tt = (Ok d, tt) /\
    countTracksInDisc d = 3 /\
    Z.of_nat (length (listContent_log (scripted two_groups) tt))
    = 5 + 4 * countTracksInDisc d.
Proof.
  eexists. split; [vm_compute; reflexivity |].
  split; [reflexivity |].
  match goal with
  | |- _ = 5 + 4 * countTracksInDisc ?d =>
      apply (proj2 (listContent_reads (scripted two_groups) tt tt d eq_refl))
  end.
Defined.

Lemma listContent_groups_mirror_list_witness :
  exists d,
    listContent (scripted two_groups) tt = (Ok d, tt) /\
    map (fun g => (Group.title g, map Track.index (Group.tracks g)))
        (Disc.groups d)
    = [(Some "A"%string, [0; 1]); (Some "B"%string, [2])].
Proof.
  eexists. split; [vm_compute; reflexivity |].
  match goal with
  | |- map _ (Disc.groups ?d) = _ =>
      destruct (listContent_groups_mirror_list (scripted two_groups) tt tt d)
        as (tgl & [] & wb & Htgl & Hmirror & _); [vm_compute; reflexivity |]
  end.
  rewrite Hmirror. vm_compute in Htgl. injection Htgl as <- _. reflexivity.
Defined.

Lemma listContent_tracks_read_witness :
  exists d tr,
    listContent (scripted two_groups) tt = (Ok d, tt) /\
    In tr (getTracks d) /\ Track.index tr = 2 /\
    track_read (scripted two_groups) tr.
Proof.
  eexists. eexists. split; [vm_compute; reflexivity |].
  split; [vm_compute; right; right; left; reflexivity |].
  split; [reflexivity |].
  eapply (listContent_tracks_read (scripted two_groups) tt tt).
  - vm_compute. reflexivity.
  - vm_compute. right. right. left. reflexivity.
Defined.

(** ** [getDeviceStatus]: its reads *)

Section StatusReads.
Context {T : Types} {W : Type}.
Variable i : NetMDInterface T W.

(** X6: [getDeviceStatus] reads the status, the playback status and the
    position, in this order and once each, and decodes what it read; it
    throws only when a read throws, with that read's error and without
    making the reads that would follow; whatever the three reads return,
    buffers of any length included, it returns a status. *)
Theorem getDeviceStatus_reads (w : W) :
  (forall ds w', getDeviceStatus i w = (Ok ds, w') ->
     getDeviceStatus_log i w
     = map returned [CgetStatus; CgetPlaybackStatus2; CgetPosition]) /\
  (forall e w', getDeviceStatus i w = (Throw e, w') ->
     getDeviceStatus_log i w = [threw CgetStatus e] \/
     getDeviceStatus_log i w
     = [returned CgetStatus; threw CgetPlaybackStatus2 e] \/
     getDeviceStatus_log i w
     = [returned CgetStatus; returned CgetPlaybackStatus2;
        threw CgetPosition e]) /\
  (forall status pb pos w1 w2 w3,
     getStatus i w = (Ok status, w1) ->
     getPlaybackStatus2 i w1 = (Ok pb, w2) ->
     getPosition i w2 = (Ok pos, w3) ->
     getDeviceStatus i w = (Ok (decodeStatus status pb pos), w3)).
Proof.
  unfold getDeviceStatus_log, getDeviceStatus, bind, ret, spy, observe. cbn.
  destruct (getStatus i w) as [[status | e1] w1] eqn:E1; cbn;
    [destruct (getPlaybackStatus2 i w1) as [[pb | e2] w2] eqn:E2; cbn;
     [destruct (getPosition i w2) as [[pos | e3] w3] eqn:E3; cbn |] |].
  all: repeat split; intros.
  all: solve [ congruence
             | left; congruence
             | right; left; congruence
             | right; right; congruence ].
Qed.

End StatusReads.

Lemma getDeviceStatus_reads_witness :
  fst (getDeviceStatus (scripted position_fails) tt) = Throw "no position"%string /\
  (getDeviceStatus_log (scripted position_fails) tt
   = [returned CgetStatus; returned CgetPlaybackStatus2;
      threw CgetPosition "no position"%string]).
Proof.
  split; [reflexivity |].
  destruct (proj1 (proj2 (getDeviceStatus_reads (scripted position_fails) tt))
              "no position"%string tt eq_refl) as [H | [H | H]].
  - vm_compute in H. discriminate H.
  - vm_compute in H. discriminate H.
  - exact H.
Defined.

(** ** [download]: the session it uses and the calls it makes *)

Lemma try_catch_ignore_run {W E} (m : M W E unit) (w : W) :
  try_catch m (fun _ => ret tt) w = (Ok tt, snd (m w)).
Proof.
  unfold try_catch, ret. destruct (m w) as [[[] | e] w1]; reflexivity.
Qed.

Section DownloadCalls.
Context {T : Types} {W : Type}.
Variable i : NetMDInterface T W.
Variable track : MDTrack T.
Variable cb : option (ProgressCallback T).

(** X13: a run of [download] that returns has acquired the device, has built
    one session on one freshly built key source, has initialised that
    session, sent the caller's track through it with the caller's
    callback, closed it and released the device, each step on the device
    state the step before left; what it returns is what [downloadTrack]
    returned, and the device is left as [release] left it. *)
Theorem download_returns_transfer_result (w w' : W) (res : Z * string * string) :
  download i track cb w = (Ok res, w') ->
  exists w1 w2 ekb w4 session w5 w6 w7 w8,
    acquire i w1 = (Ok tt, w2) /\
    EKBOpenSource_new i (snd (disableNewTrackProtection i 1 w2)) = (Ok ekb, w4) /\
    MDSession_new i ekb w4 = (Ok session, w5) /\
    MDSession_init i session w5 = (Ok tt, w6) /\
    MDSession_downloadTrack i session track cb w6 = (Ok res, w7) /\
    MDSession_close i session w7 = (Ok tt, w8) /\
    release i w8 = (Ok tt, w').
Proof.
  unfold download. intros H.
  apply bind_Ok_inv in H as ([] & w1 & _ & H).
  apply bind_Ok_inv in H as ([] & w2 & Hacq & H).
  apply bind_Ok_inv in H as ([] & w3 & Hdis & H).
  rewrite try_catch_ignore_run in Hdis. injection Hdis as <-.
  apply bind_Ok_inv in H as (ekb & w4 & Hekb & H).
  apply bind_Ok_inv in H as (session & w5 & Hnew & H).
  apply bind_Ok_inv in H as ([] & w6 & Hinit & H).
  apply bind_Ok_inv in H as ([[trk uuid] ccid] & w7 & Hdl & H).
  apply bind_Ok_inv in H as ([] & w8 & Hclose & H).
  apply bind_Ok_inv in H as ([] & w9 & Hrel & H).
  apply ret_Ok_inv in H as [<- <-].
  exists w1, w2, ekb, w4, session, w5, w6, w7, w8.
  repeat split; assumption.
Qed.

Ltac run_observed_download :=
  unfold download, try_catch, bind, ret, spy, observe; cbn;
  repeat match goal with
         | |- context [match ?f ?w with _ => _ end] =>
             destruct (f w) as [[? | ?] ?] eqn:?; cbn
         | |- context [let (_, _) := ?f ?w in _] =>
             destruct (f w) as [[? | ?] ?] eqn:?; cbn
         | |- context [let (_, _) := ?a in _] =>
             is_var a; destruct a; cbn
         end.

Ltac in_log :=
  repeat match goal with
         | H : In _ _ |- _ => cbn in H; decompose sum H; clear H
         | H : _ = _ :> Event _ |- _ =>
             first [discriminate H | injection H; clear H; intros; subst]
         | H : _ = _ :> list _ |- _ => discriminate H
         | H : False |- _ => destruct H
         end.

(** X14: the calls of [download] come in one fixed order, each at most once:
    [sessionKeyForget], then [leaveSecureSession] exactly when
    [sessionKeyForget] returned, then a beginning of the sequence
    [acquire], [disableNewTrackProtection(1)], the two constructions,
    [init], [downloadTrack], [close], [release] that holds at least
    [acquire].  No call is retried and no other operation of the interface
    is used. *)
Theorem download_call_order (w w' : W) r (log : list (Event (Err T))) :
  download (spy i) track cb (w, []) = (r, (w', log)) ->
  exists cleanup n,
    map call log = cleanup ++ take n transfer_calls /\
    (1 <= n <= 8)%nat /\
    (In (returned CsessionKeyForget) log ->
     cleanup = [CsessionKeyForget; CleaveSecureSession]) /\
    (~ In (returned CsessionKeyForget) log -> cleanup = [CsessionKeyForget]) /\
    NoDup (map call log).
Proof.
  run_observed_download.
  all: intros H; injection H as <- <- <-.
  all: solve
    [ (exists [CsessionKeyForget]
       + exists [CsessionKeyForget; CleaveSecureSession]);
      (exists 1%nat + exists 2%nat + exists 3%nat + exists 4%nat
       + exists 5%nat + exists 6%nat + exists 7%nat + exists 8%nat);
      split; [reflexivity |];
      split; [lia |];
      split; [intros; in_log; reflexivity |];
      split; [intros Hn; try reflexivity; exfalso; apply Hn; cbn; tauto |];
      cbn; apply NoDup_ListNoDup;
      repeat (constructor; [cbn; intuition discriminate |]); constructor ].
Qed.

(** X15: [download] returns exactly when [release] has returned, and then every
    step from [acquire] on has returned; the outcome of the cleanup and of
    [disableNewTrackProtection] plays no part. *)
Theorem download_returns_iff_released (w w' : W) r (log : list (Event (Err T))) :
  download (spy i) track cb (w, []) = (r, (w', log)) ->
  ((exists res, r = Ok res) <-> In (returned Crelease) log) /\
  (In (returned Crelease) log ->
   forall c, In c [Cacquire; CnewEKBOpenSource; CnewMDSession; Cinit;
                   CdownloadTrack; Cclose] ->
             In (returned c) log).
Proof.
  run_observed_download.
  all: intros H; injection H as <- <- <-.
  all: split; [split |].
  all: try (intros [res Hres]; discriminate Hres).
  all: try (intros _; cbn; tauto).
  all: try (intros _; eexists; reflexivity).
  all: try (intros Hin; in_log; fail).
  all: intros _ c Hc; cbn in Hc; decompose sum Hc; subst; cbn; tauto.
Qed.

End DownloadCalls.

Lemma download_returns_transfer_result_witness :
  exists session,
    MDSession_downloadTrack (scripted two_groups) session tt None tt
    = (Ok (3, "uuid"%string, "ccid"%string), tt).
Proof.
  destruct (download_returns_transfer_result (scripted two_groups) tt None tt tt
              (3, "uuid"%string, "ccid"%string))
    as (w1 & w2 & ekb & w4 & session & w5 & [] & [] & w8 & _ & _ & _ & _ & Hdl & _).
  - vm_compute. reflexivity.
  - exists session. exact Hdl.
Defined.

Lemma download_call_order_witness :
  map call (download_log (scripted init_fails) tt None tt)
  = [CsessionKeyForget; CleaveSecureSession] ++ take 5 transfer_calls /\
  NoDup (map call (download_log (scripted init_fails) tt None tt)).
Proof.
  split; [reflexivity |].
  destruct (download_call_order (scripted init_fails) tt None tt tt
              (fst (download (scripted init_fails) tt None tt))
              (download_log (scripted init_fails) tt None tt))
    as (cleanup & n & _ & _ & _ & _ & Hnd).
  - vm_compute. reflexivity.
  - exact Hnd.
Defined.

Lemma download_returns_iff_released_witness :
  In (returned Crelease) (download_log (scripted protection_unsupported) tt None tt).
Proof.
  apply (proj1 (download_returns_iff_released (scripted protection_unsupported)
                  tt None tt tt
                  (fst (download (scripted protection_unsupported) tt None tt))
                  (download_log (scripted protection_unsupported) tt None tt)
                  eq_refl)).
  eexists. vm_compute. reflexivity.
Defined.

(** ** Finding and describing devices *)

Section DeviceCommands.
Context {U : UsbTypes} {W : Type}.
Variable usb : UsbEnv U W.
Variable logger : option (Logger U).

(** X16: [openPairedDevice] returns null exactly when the browser lists no
    paired device, and then does nothing after the listing. *)
Theorem openPairedDevice_null_iff (w w' : W) :
  openPairedDevice usb logger w = (Ok None, w') <->
  getDevices usb w = (Ok [], w').
Proof.
  unfold openPairedDevice. rewrite bind_run.
  destruct (getDevices usb w) as [[[| d rest] | e] w1]; cbn.
  - unfold ret. split; intros H; injection H as <-; reflexivity.
  - rewrite !bind_run.
    destruct (NetMD_new usb d 0 logger w1) as [[netmd | e] w2];
      [| split; discriminate].
    rewrite !bind_run.
    destruct (NetMD_init usb netmd w2) as [[[] | e] w3]; [| split; discriminate].
    rewrite !bind_run.
    destruct (NetMDInterface_new usb netmd logger w3) as [[iface | e] w4];
      split; discriminate.
  - split; discriminate.
Qed.

(** X17: an interface returned by [openPairedDevice] wraps a [NetMD] built on
    the first of the paired devices, with interface number 0 and the
    caller's logger, and initialised before the interface is built; the
    other paired devices are not touched. *)
Theorem openPairedDevice_opens_first (w w' : W) (iface : Interface U) :
  openPairedDevice usb logger w = (Ok (Some iface), w') ->
  exists device rest netmd w1 w2 w3,
    getDevices usb w = (Ok (device :: rest), w1) /\
    NetMD_new usb device 0 logger w1 = (Ok netmd, w2) /\
    NetMD_init usb netmd w2 = (Ok tt, w3) /\
    NetMDInterface_new usb netmd logger w3 = (Ok iface, w').
Proof.
  unfold openPairedDevice. intros H.
  apply bind_Ok_inv in H as ([| device rest] & w1 & Hdev & H).
  - apply ret_Ok_inv in H as [H _]. discriminate H.
  - apply bind_Ok_inv in H as (netmd & w2 & Hnew & H).
    apply bind_Ok_inv in H as ([] & w3 & Hinit & H).
    apply bind_Ok_inv in H as (iface' & w4 & Hif & H).
    apply ret_Ok_inv in H as [Heq <-]. injection Heq as ->.
    exists device, rest, netmd, w1, w2, w3. repeat split; assumption.
Qed.

(** X18: [openNewDevice] turns a failure of the device chooser into null: it
    returns null exactly when [requestDevice] threw, it then does nothing
    more, and an error it throws never comes from [requestDevice], which
    has then returned a device; [listDevice], on the same failure, throws
    the chooser's error. *)
Theorem openNewDevice_swallows_chooser_failure (w w' : W) :
  (openNewDevice usb logger w = (Ok None, w') <->
   exists e, requestDevice usb (filters usb) w = (Throw e, w')) /\
  (forall e, openNewDevice usb logger w = (Throw e, w') ->
     exists device w1, requestDevice usb (filters usb) w = (Ok device, w1)) /\
  (forall e, requestDevice usb (filters usb) w = (Throw e, w') ->
     listDevice usb w = (Throw e, w')).
Proof.
  unfold openNewDevice, listDevice, try_catch. rewrite !bind_run.
  destruct (requestDevice usb (filters usb) w) as [[device | e] w1] eqn:Hreq; cbn.
  - rewrite !bind_run.
    destruct (NetMD_new usb device 0 logger w1) as [[netmd | e] w2]; cbn.
    2: { repeat split; try discriminate; [intros [e' H]; discriminate H |].
         intros e' _. exists device, w1. reflexivity. }
    rewrite !bind_run.
    destruct (NetMD_init usb netmd w2) as [[[] | e] w3]; cbn.
    2: { repeat split; try discriminate; [intros [e' H]; discriminate H |].
         intros e' _. exists device, w1. reflexivity. }
    rewrite !bind_run.
    destruct (NetMDInterface_new usb netmd logger w3) as [[iface | e] w4]; cbn.
    + repeat split; try discriminate. intros [e' H]; discriminate H.
    + repeat split; try discriminate; [intros [e' H]; discriminate H |].
      intros e' _. exists device, w1. reflexivity.
  - unfold ret. split; [| split].
    + split.
      * intros H. injection H as <-. exists e. reflexivity.
      * intros [e' H]. injection H as _ <-. reflexivity.
    + intros e' H. discriminate H.
    + intros e' H. injection H as <- <-. reflexivity.
Qed.

Lemma find_first {A} (f : A -> bool) (pre : list A) (x : A) (post : list A) :
  Forall (fun y => f y = false) pre -> f x = true ->
  find f (pre ++ x :: post) = Some x.
Proof.
  intros Hpre Hx. induction Hpre as [| y pre Hy _ IH]; cbn.
  - rewrite Hx. reflexivity.
  - rewrite Hy. exact IH.
Qed.

Lemma find_no_match {A} (f : A -> bool) (l : list A) :
  Forall (fun y => f y = false) l -> find f l = None.
Proof.
  intros H. induction H as [| y l Hy _ IH]; cbn; [reflexivity |].
  rewrite Hy. exact IH.
Qed.

(** X19: [listDevice] describes the device the chooser returned, without
    opening it: the ids are the device's; a name the device lacks is
    unknown; and the name of the model is the one of the first entry of
    [DevicesIds] with the device's product and vendor ids, unknown when
    that entry has no name or when no entry has these ids. *)
Theorem listDevice_describes_chosen (w w' : W) (dev : Device.t) :
  listDevice usb w = (Ok dev, w') ->
  exists device,
    requestDevice usb (filters usb) w = (Ok device, w') /\
    Device.vendorId dev = vendorId device /\
    Device.productId dev = productId device /\
    Device.manufacturerName dev = nullish (manufacturerName device) "unknown" /\
    Device.productName dev = nullish (productName device) "unknown" /\
    (forall pre did post,
       DevicesIds usb = pre ++ did :: post ->
       Forall (fun x => id_deviceId x <> productId device \/
                        id_vendorId x <> vendorId device) pre ->
       id_deviceId did = productId device ->
       id_vendorId did = vendorId device ->
       Device.name dev = nullish (id_name did) "unknown") /\
    (Forall (fun x => id_deviceId x <> productId device \/
                      id_vendorId x <> vendorId device) (DevicesIds usb) ->
     Device.name dev = "unknown"%string).
Proof.
  unfold listDevice. intros H.
  apply bind_Ok_inv in H as (device & w1 & Hreq & H).
  apply ret_Ok_inv in H as [<- <-].
  exists device. split; [exact Hreq |].
  repeat (split; [reflexivity |]).
  assert (Hno : forall l,
             Forall (fun x => id_deviceId x <> productId device \/
                              id_vendorId x <> vendorId device) l ->
             Forall (fun y => matches device y = false) l).
  { intros l Hl. eapply Forall_impl; [exact Hl |].
    intros x Hx. unfold matches. cbn in Hx.
    destruct (Z.eqb_spec (id_deviceId x) (productId device));
      destruct (Z.eqb_spec (id_vendorId x) (vendorId device));
      cbn; try reflexivity. tauto. }
  split.
  - intros pre did post Hids Hpre Hp Hv. cbn.
    rewrite Hids, (find_first (matches device) pre did post); [reflexivity | |].
    + apply Hno, Hpre.
    + unfold matches. rewrite Hp, Hv, !Z.eqb_refl. reflexivity.
  - intros Hall. cbn. rewrite find_no_match by (apply Hno, Hall). reflexivity.
Qed.

End DeviceCommands.

Lemma openPairedDevice_opens_first_witness :
  exists rest,
    getDevices (scripted_usb browser) tt = (Ok (sony_n1 :: rest), tt).
Proof.
  destruct (openPairedDevice_opens_first (scripted_usb browser) None tt tt sony_n1)
    as (device & rest & netmd & [] & [] & [] & Hdev & Hnew & _ & Hif).
  - vm_compute. reflexivity.
  - exists rest. cbn in Hnew, Hif.
    unfold ret in Hnew, Hif. injection Hnew as <-. injection Hif as <-.
    exact Hdev.
Defined.

Lemma openNewDevice_swallows_chooser_failure_witness :
  openNewDevice (scripted_usb chooser_dismissed) None tt = (Ok None, tt) /\
  listDevice (scripted_usb chooser_dismissed) tt
  = (Throw "no device selected"%string, tt).
Proof.
  split.
  - reflexivity.
  - apply (proj2 (proj2 (openNewDevice_swallows_chooser_failure
                           (scripted_usb chooser_dismissed) None tt tt))).
    reflexivity.
Defined.

Lemma listDevice_describes_chosen_witness :
  exists dev,
    listDevice (scripted_usb browser) tt = (Ok dev, tt) /\
    Device.name dev = "Sony MZ-N1"%string /\
    Device.productName dev = "unknown"%string.
Proof.
  eexists. split; [vm_compute; reflexivity |].
  split; [| reflexivity].
  match goal with
  | |- Device.name ?dev = _ =>
      destruct (listDevice_describes_chosen (scripted_usb browser) tt tt dev)
        as (device & Hreq & _ & _ & _ & _ & Hname & _);
        [vm_compute; reflexivity |]
  end.
  vm_compute in Hreq. injection Hreq as <-.
  apply (Hname [ {| id_vendorId := 1245; id_deviceId := 29186;
                    id_name := Some "Sharp IM-MT899H"%string |} ]
               {| id_vendorId := 1356; id_deviceId := 117;
                  id_name := Some "Sony MZ-N1"%string |}
               [ {| id_vendorId := 1356; id_deviceId := 117;
                    id_name := Some "Sony MZ-N1 (second entry)"%string |} ]).
  - reflexivity.
  - constructor; [| constructor]. cbn. left. discriminate.
  - reflexivity.
  - reflexivity.
Defined.
